(** * Contact-list cleaning: the suspect classifier of [script.py]

    A shallow embedding of [extract_domain], the two resolvers
    ([find_dominant_company_per_domain], [find_canonical_company_by_name]),
    [mark_suspects] and [main], with the pandas operations they are built
    from, followed by the properties of the specification.

    Modelling conventions.
    - A Python [str] is a [string] of 8-bit characters.  Whitespace and
      letter case follow Python's tables on the ASCII range; characters from
      128 up are neither whitespace nor cased.  Comparison of strings is
      character by character on the codes, as in Python.
    - A cell of a text column is a string or NaN ([cell]); this is what
      [pandas.read_csv] yields for a column of text.
    - [count / total_domain] is kept as an exact rational.  Both operands are
      row counts, so the double the program computes is the rounding of this
      rational, and [>= 0.6] gives the same answer on both for any table of
      fewer than 2^50 rows.
    - The text of a reason and of a printed message is kept as a constructor
      that carries the values the f-string cites. *)

From Stdlib Require Import List String Ascii Bool Arith ZArith QArith Lia.
From Stdlib Require Import Sorted OrderedTypeEx.
Import ListNotations.

Local Close Scope Q_scope.
Local Open Scope string_scope.
Local Open Scope list_scope.
Local Open Scope nat_scope.

(** ** Exceptions and results *)

Inductive exn : Type :=
| IndexError
| KeyError (column : string)
| FileNotFoundError (path : string)
| ValueError_missing_columns (missing : list string)
| ValueError_no_company_column
| ValueError_invalid_suffix (suffix : string)
| ValueError_empty_name.

Inductive result (A : Type) : Type :=
| Ok (a : A)
| Raise (e : exn).
Arguments Ok {A} a.
Arguments Raise {A} e.

Definition rbind {A B : Type} (m : result A) (k : A -> result B) : result B :=
  match m with
  | Ok a => k a
  | Raise e => Raise e
  end.

Declare Scope result_scope.
Delimit Scope result_scope with result.
Notation "x <- m ;; k" := (rbind m (fun x => k))
  (at level 100, m at next level, right associativity) : result_scope.

(** ** Python string operations *)

Module Py.

(** [str.isspace] on one character. *)
Definition isspace (c : ascii) : bool :=
  let n := nat_of_ascii c in
  ((9 <=? n) && (n <=? 13)) || ((28 <=? n) && (n <=? 32)).

Fixpoint lstrip (s : string) : string :=
  match s with
  | EmptyString => EmptyString
  | String c t => if isspace c then lstrip t else s
  end.

Fixpoint rstrip (s : string) : string :=
  match s with
  | EmptyString => EmptyString
  | String c t =>
      match rstrip t with
      | EmptyString => if isspace c then EmptyString else String c EmptyString
      | t' => String c t'
      end
  end.

(** [s.strip()] *)
Definition strip (s : string) : string := rstrip (lstrip s).

Definition lower_char (c : ascii) : ascii :=
  let n := nat_of_ascii c in
  if (65 <=? n) && (n <=? 90) then ascii_of_nat (n + 32) else c.

(** [s.lower()] *)
Fixpoint lower (s : string) : string :=
  match s with
  | EmptyString => EmptyString
  | String c t => String (lower_char c) (lower t)
  end.

(** [sep in s] for a separator of one character. *)
Fixpoint contains (sep : ascii) (s : string) : bool :=
  match s with
  | EmptyString => false
  | String c t => Ascii.eqb c sep || contains sep t
  end.

(** [s.split(sep)] for a separator of one character. *)
Fixpoint split (sep : ascii) (s : string) : list string :=
  match s with
  | EmptyString => [EmptyString]
  | String c t =>
      if Ascii.eqb c sep then EmptyString :: split sep t
      else match split sep t with
           | h :: r => String c h :: r
           | [] => [String c EmptyString]
           end
  end.

(** [s.rfind(c)] for one character; [None] stands for -1. *)
Fixpoint rfind (c : ascii) (s : string) : option nat :=
  match s with
  | EmptyString => None
  | String a t =>
      match rfind c t with
      | Some i => Some (S i)
      | None => if Ascii.eqb a c then Some 0 else None
      end
  end.

(** [l[-1]] *)
Definition getitem_last {A : Type} (l : list A) : result A :=
  match nth_error l (List.length l - 1) with
  | Some x => Ok x
  | None => Raise IndexError
  end.

(** [s in set_of_strings] *)
Definition mem (s : string) (l : list string) : bool :=
  existsb (String.eqb s) l.

End Py.

(** ** Values and tables *)

(** The Python values [extract_domain] may be handed. *)
Inductive pyval : Type :=
| PStr (s : string)
| PFloat_nan
| PNone
| PInt (z : Z).

(** A cell of a text column. *)
Inductive cell : Type :=
| Text (s : string)
| NaN.

Definition value_of (c : cell) : pyval :=
  match c with
  | Text s => PStr s
  | NaN => PFloat_nan
  end.

(** [Series.astype(str)] on one cell of an object column: NaN becomes the
    text nan. *)
Definition astype_str (c : cell) : string :=
  match c with
  | Text s => s
  | NaN => "nan"
  end.

(** The two columns of the input table that the program reads. *)
Record row : Type := {
  Email : cell;
  Company_Name : cell
}.

Definition DOMINANT_MIN_SHARE : Q := 6 # 10.

(** ** [extract_domain] *)

Definition extract_domain (email : pyval) : result (option string) :=
  match email with
  | PStr s =>
      if negb (Py.contains "@" s) then Ok None
      else (last <- Py.getitem_last (Py.split "@" s) ;;
            Ok (Some (Py.lower (Py.strip last))))%result
  | _ => Ok None
  end.

(** ** pandas operations *)

Module Pd.

(** [Series.apply(f)] with a function that may raise. *)
Fixpoint apply {A B : Type} (f : A -> result B) (l : list A) : result (list B) :=
  match l with
  | [] => Ok []
  | x :: t => (y <- f x ;; ys <- apply f t ;; Ok (y :: ys))%result
  end.

Section Groupby.
Context {K : Type} (eqb ltb : K -> K -> bool).

(** One more row for group [k], worth [n]; the groups are kept in
    ascending key order ([sort=True]). *)
Fixpoint add_group (k : K) (n : nat) (gs : list (K * nat)) : list (K * nat) :=
  match gs with
  | [] => [(k, n)]
  | (k', m) :: t =>
      if eqb k k' then (k', m + n) :: t
      else if ltb k k' then (k, n) :: gs
      else (k', m) :: add_group k n t
  end.

(** [groupby(keys)[val].sum().reset_index()]; a row whose key is NaN
    belongs to no group ([dropna=True]). *)
Definition groupby_sum {R : Type} (key : R -> option K) (val : R -> nat)
    (rows : list R) : list (K * nat) :=
  fold_left (fun gs r =>
               match key r with
               | Some k => add_group k (val r) gs
               | None => gs
               end) rows [].

(** [groupby(keys).size().reset_index(name="count")] *)
Definition groupby_size {R : Type} (key : R -> option K) (rows : list R)
    : list (K * nat) :=
  groupby_sum key (fun _ => 1) rows.

(** [Series.value_counts()] followed by [.get(k, 0)]. *)
Definition value_counts_get (l : list K) (k : K) : nat :=
  List.length (filter (eqb k) l).

(** [drop_duplicates(key)] keeps the first row of each key. *)
Fixpoint drop_duplicates_from {R : Type} (key : R -> K) (seen : list K)
    (rows : list R) : list R :=
  match rows with
  | [] => []
  | r :: t =>
      if existsb (eqb (key r)) seen then drop_duplicates_from key seen t
      else r :: drop_duplicates_from key (key r :: seen) t
  end.

Definition drop_duplicates {R : Type} (key : R -> K) (rows : list R) : list R :=
  drop_duplicates_from key [] rows.

(** [left.merge(right, on=key)]: one row per matching pair, in the
    order of the left rows. *)
Definition merge_inner {L R : Type} (kl : L -> K) (kr : R -> K)
    (left : list L) (right : list R) : list (L * R) :=
  flat_map (fun l => map (pair l) (filter (fun r => eqb (kl l) (kr r)) right)) left.

(** [left.merge(right, on=key, how="left")]: a left row without a match
    is kept once, with NaN in the columns of the right. *)
Definition merge_left {L R : Type} (kl : L -> option K) (kr : R -> K)
    (left : list L) (right : list R) : list (L * option R) :=
  flat_map (fun l =>
              match kl l with
              | Some k =>
                  match filter (fun r => eqb k (kr r)) right with
                  | [] => [(l, None)]
                  | ms => map (fun r => (l, Some r)) ms
                  end
              | None => [(l, None)]
              end) left.
End Groupby.

Section Sort.
Context {R : Type} (le : R -> R -> bool).

Fixpoint insert_sorted (x : R) (l : list R) : list R :=
  match l with
  | [] => [x]
  | y :: t => if le x y then x :: l else y :: insert_sorted x t
  end.

(** [sort_values(by)], a stable sort: rows that compare equal keep the
    order they had. *)
Definition sort_values (l : list R) : list R :=
  fold_right insert_sorted [] l.
End Sort.

End Pd.

(** Orders on the group keys. *)

Definition pair_eqb (a b : string * string) : bool :=
  String.eqb (fst a) (fst b) && String.eqb (snd a) (snd b).

Definition pair_ltb (a b : string * string) : bool :=
  String.ltb (fst a) (fst b)
  || (String.eqb (fst a) (fst b) && String.ltb (snd a) (snd b)).

(** [by=[key, "count"], ascending=[True, False]] *)
Definition by_key_then_count_desc {R : Type} (key : R -> string) (count : R -> nat)
    (x y : R) : bool :=
  String.ltb (key x) (key y)
  || (String.eqb (key x) (key y) && (count y <=? count x)).

(** ** The derived columns *)

Record derived : Type := {
  base : row;
  domain : option string;
  company_clean : string;
  company_norm : string
}.

(** ** [find_dominant_company_per_domain] *)

(** A row of [stats]: a (domain, Company Name) group with its count, the
    total of its domain and its share. *)
Record DomainStat : Type := {
  st_domain : string;
  st_company : string;
  st_count : nat;
  st_total : nat
}.

Definition share (s : DomainStat) : Q :=
  Z.of_nat (st_count s) # Pos.of_nat (st_total s).

Record DominantAssignment : Type := {
  da_domain : string;
  dominant_company : string;
  dominant_share : Q
}.

(** The key of [df.groupby(["domain", "Company Name"])]: the raw cell of the
    company column. *)
Definition domain_company_key (r : derived) : option (string * string) :=
  match domain r, Company_Name (base r) with
  | Some d, Text c => Some (d, c)
  | _, _ => None
  end.

(** The frame [stats] after the merge with the totals and with [share]. *)
Definition domain_stats (df : list derived) : list DomainStat :=
  let stats := Pd.groupby_size pair_eqb pair_ltb domain_company_key df in
  let total_per_domain :=
    Pd.groupby_sum String.eqb String.ltb (fun s => Some (fst (fst s))) snd stats in
  let stats := Pd.merge_inner String.eqb (fun s => fst (fst s)) fst stats total_per_domain in
  map (fun st =>
         {| st_domain := fst (fst (fst st));
            st_company := snd (fst (fst st));
            st_count := snd (fst st);
            st_total := snd (snd st) |}) stats.

Definition find_dominant_company_per_domain (df : list derived)
    : list DominantAssignment :=
  let stats := domain_stats df in
  let dominant :=
    Pd.drop_duplicates String.eqb st_domain
      (Pd.sort_values (by_key_then_count_desc st_domain st_count) stats) in
  map (fun s =>
         {| da_domain := st_domain s;
            dominant_company := st_company s;
            dominant_share := share s |}) dominant.

(** ** [find_canonical_company_by_name] *)

Record CanonicalAssignment : Type := {
  ca_company_norm : string;
  canonical_company : string
}.

(** The frame [name_stats]: a (company_norm, Company Name) group with its
    count, over the column [temp] of trimmed names. *)
Definition name_stats {R : Type} (Company_Name : R -> cell) (df : list R)
    : list ((string * string) * nat) :=
  let temp := map (fun r => Py.strip (astype_str (Company_Name r))) df in
  Pd.groupby_size pair_eqb pair_ltb (fun s => Some (Py.lower s, s)) temp.

Definition find_canonical_company_by_name {R : Type} (Company_Name : R -> cell)
    (df : list R) : list CanonicalAssignment :=
  let canonical :=
    Pd.drop_duplicates String.eqb (fun s => fst (fst s))
      (Pd.sort_values (by_key_then_count_desc (fun s => fst (fst s)) snd)
         (name_stats Company_Name df)) in
  map (fun s =>
         {| ca_company_norm := fst (fst s);
            canonical_company := snd (fst s) |}) canonical.

(** ** [mark_suspects] *)

Inductive reason : Type :=
| Differs_from_dominant (domain dominant_company : string) (dominant_share : Q)
| Not_in_prospects
| Appears_once
| Differs_from_canonical (canonical_company : string).

(** A row of the frame after the two left merges. *)
Definition merged : Type :=
  ((derived * option DominantAssignment) * option CanonicalAssignment)%type.

Definition cols (r : merged) : derived := fst (fst r).

(** [row.get("dominant_company")] and the like; [None] stands for NaN. *)
Definition get_dominant_company (r : merged) : option string :=
  option_map dominant_company (snd (fst r)).
Definition get_dominant_share (r : merged) : option Q :=
  option_map dominant_share (snd (fst r)).
Definition get_domain (r : merged) : option string := domain (cols r).
Definition get_canonical_company (r : merged) : option string :=
  option_map canonical_company (snd r).

(** The three variables the loop body updates. *)
Record verdict : Type := {
  v_is_suspect : bool;
  v_reasons : list reason;
  v_suggest : option string
}.

Definition verdict0 : verdict :=
  {| v_is_suspect := false; v_reasons := []; v_suggest := None |}.

Definition check_dominant (r : merged) (v : verdict) : verdict :=
  match get_domain r, get_dominant_company r, get_dominant_share r with
  | Some d, Some dc, Some sh =>
      if negb (String.eqb (company_clean (cols r)) dc)
         && Qle_bool DOMINANT_MIN_SHARE sh
      then {| v_is_suspect := true;
              v_reasons := v_reasons v ++ [Differs_from_dominant d dc sh];
              v_suggest := Some dc |}
      else v
  | _, _, _ => v
  end.

Definition check_prospects (prospect_companies : list string) (r : merged)
    (v : verdict) : verdict :=
  match prospect_companies with
  | [] => v
  | _ :: _ =>
      if negb (Py.mem (company_clean (cols r)) prospect_companies)
      then {| v_is_suspect := true;
              v_reasons := v_reasons v ++ [Not_in_prospects];
              v_suggest := v_suggest v |}
      else v
  end.

Definition check_singleton (company_counts : string -> nat) (r : merged)
    (v : verdict) : verdict :=
  if company_counts (company_clean (cols r)) =? 1
  then {| v_is_suspect := true;
          v_reasons := v_reasons v ++ [Appears_once];
          v_suggest := v_suggest v |}
  else v.

Definition check_canonical (r : merged) (v : verdict) : verdict :=
  match get_canonical_company r with
  | Some cc =>
      if negb (String.eqb (company_clean (cols r)) cc)
      then {| v_is_suspect := true;
              v_reasons := v_reasons v ++ [Differs_from_canonical cc];
              v_suggest := match v_suggest v with
                           | None => Some cc
                           | Some s => Some s
                           end |}
      else v
  | None => v
  end.

(** The body of the loop over [df.iterrows()]. *)
Definition loop_body (prospect_companies : list string)
    (company_counts : string -> nat) (r : merged) : verdict :=
  check_canonical r
    (check_singleton company_counts r
       (check_prospects prospect_companies r
          (check_dominant r verdict0))).

(** A row of the returned frame. *)
Record marked : Type := {
  columns_of : merged;
  is_suspect : bool;
  suspect_reasons : list reason;
  suggested_company : option string
}.

(** Lines 92 to 94: the columns [domain], [company_clean], [company_norm]. *)
Definition derive (r : row) (d : option string) : derived :=
  let clean := Py.strip (astype_str (Company_Name r)) in
  {| base := r; domain := d; company_clean := clean;
     company_norm := Py.lower clean |}.

Definition derived_columns (df : list row) : result (list derived) :=
  (domains <- Pd.apply extract_domain (map (fun r => value_of (Email r)) df) ;;
   Ok (map (fun rd => derive (fst rd) (snd rd)) (combine df domains)))%result.

(** Lines 97 to 101: the two resolvers and the two left merges. *)
Definition merge_assignments (df : list derived) : list merged :=
  let dominant_df := find_dominant_company_per_domain df in
  let df := Pd.merge_left String.eqb domain da_domain df dominant_df in
  let canonical_df :=
    find_canonical_company_by_name (fun r => Company_Name (base (fst r))) df in
  Pd.merge_left String.eqb (fun r => Some (company_norm (fst r)))
    ca_company_norm df canonical_df.

(** One turn of the loop and the three columns it fills for that row. *)
Definition mark_row (prospect_companies : list string)
    (company_counts : string -> nat) (r : merged) : marked :=
  let v := loop_body prospect_companies company_counts r in
  {| columns_of := r;
     is_suspect := v_is_suspect v;
     suspect_reasons := v_reasons v;
     suggested_company := v_suggest v |}.

Definition mark_suspects (df : list row) (prospect_companies : list string)
    : result (list marked) :=
  (df <- derived_columns df ;;
   let company_counts := Pd.value_counts_get String.eqb (map company_clean df) in
   let df := merge_assignments df in
   Ok (map (mark_row prospect_companies company_counts) df))%result.

(** ** [main] *)

(** [pathlib.Path] on POSIX path strings. *)
Module Path.

Definition parts (p : string) : list string :=
  filter (fun c => negb (String.eqb c "" || String.eqb c ".")) (Py.split "/" p).

Definition name (p : string) : string := last (parts p) "".

Definition suffix_of_name (n : string) : string :=
  match Py.rfind "." n with
  | Some i =>
      if (0 <? i) && (i <? String.length n - 1)
      then substring i (String.length n - i) n
      else ""
  | None => ""
  end.

(** [Path(p).suffix] *)
Definition suffix (p : string) : string := suffix_of_name (name p).

(** The root of a POSIX path: exactly two leading slashes are kept, any
    other number of them counts as one. *)
Definition root (p : string) : string :=
  if prefix "//" p && negb (prefix "///" p) then "//"
  else if prefix "/" p then "/" else "".

Definition render (root : string) (ps : list string) : string :=
  String.append root (String.concat "/" ps).

(** [Path(p).with_suffix(suffix)], rendered as a string. *)
Definition with_suffix (p suffix : string) : result string :=
  if Py.contains "/" suffix
     || (negb (String.eqb suffix "") && negb (prefix "." suffix))
     || String.eqb suffix "."
  then Raise (ValueError_invalid_suffix suffix)
  else
    let n := name p in
    if String.eqb n "" then Raise ValueError_empty_name
    else
      let old := suffix_of_name n in
      let stem := substring 0 (String.length n - String.length old) n in
      Ok (render (root p) (removelast (parts p) ++ [String.append stem suffix])).

End Path.

(** A parsed CSV file: its header and its lines. *)
Record frame : Type := {
  columns : list string;
  data : list (list cell)
}.

Fixpoint index_of (c : string) (names : list string) : option nat :=
  match names with
  | [] => None
  | n :: t => if String.eqb c n then Some 0 else option_map S (index_of c t)
  end.

(** [df[c]] *)
Definition getitem (df : frame) (c : string) : result (list cell) :=
  match index_of c (columns df) with
  | Some i => Ok (map (fun line => nth i line NaN) (data df))
  | None => Raise (KeyError c)
  end.

(** The two columns [mark_suspects] reads from the frame it is given. *)
Definition rows_of (df : frame) : result (list row) :=
  (emails <- getitem df "Email" ;;
   companies <- getitem df "Company Name" ;;
   Ok (map (fun ec => {| Email := fst ec; Company_Name := snd ec |})
         (combine emails companies)))%result.

(** What the run finds on disk. [read_lines p] is
    [p.read_text(encoding="utf-8").splitlines()].  Every read is answered
    and, in [main] below, every write goes through: the effects of a run in
    which the system refuses a read or a write are a prefix of the effects
    given here, and that run ends with the error of the system. *)
Record world : Type := {
  exists_ : string -> bool;
  read_csv : string -> frame;
  read_lines : string -> list string
}.

Record args : Type := {
  input_csv : string;
  empresas_prospectadas : option string;
  saida_base : string
}.

Inductive message : Type :=
| Msg_lendo (input_path : string)
| Msg_aviso_nao_encontrado (path : string)
| Msg_carregadas (n : nat)
| Msg_deu_certo.

Inductive event : Type :=
| Stdout (m : message)
| To_csv (path : string) (table : list marked)
| To_csv_pac (path : string) (table : list row).

(** Computations of [main]: they append to the trace of effects and return
    or raise. *)
Definition IO (A : Type) : Type := list event -> list event * result A.

Definition ret {A : Type} (a : A) : IO A := fun tr => (tr, Ok a).
Definition raise {A : Type} (e : exn) : IO A := fun tr => (tr, Raise e).
Definition emit (ev : event) : IO unit := fun tr => (tr ++ [ev], Ok tt).
Definition lift {A : Type} (r : result A) : IO A := fun tr => (tr, r).
Definition bind {A B : Type} (m : IO A) (k : A -> IO B) : IO B :=
  fun tr =>
    match m tr with
    | (tr', Ok a) => k a tr'
    | (tr', Raise e) => (tr', Raise e)
    end.

Declare Scope io_scope.
Delimit Scope io_scope with io.
Notation "x <- m ;; k" := (bind m (fun x => k))
  (at level 100, m at next level, right associativity) : io_scope.
Notation "m ;; k" := (bind m (fun _ => k))
  (at level 100, right associativity) : io_scope.

Definition company_column_names : list string :=
  ["company name"; "company"; "empresa"].

(** [dropna()] then [astype(str).str.strip()] on a column. *)
Definition dropna_strip (col : list cell) : list string :=
  flat_map (fun c => match c with Text s => [Py.strip s] | NaN => [] end) col.

Definition load_prospect_companies (w : world) (path : option string)
    : IO (list string) :=
  match path with
  | None => ret []
  | Some p =>
      if String.eqb p "" then ret []
      else if negb (exists_ w p) then
        (emit (Stdout (Msg_aviso_nao_encontrado p)) ;; ret [])%io
      else if String.eqb (Py.lower (Path.suffix p)) ".txt" then
        ret (filter (fun l => negb (String.eqb l ""))
               (map Py.strip (read_lines w p)))
      else
        let df := read_csv w p in
        let col_candidates :=
          filter (fun c => Py.mem (Py.strip (Py.lower c)) company_column_names)
            (columns df) in
        match col_candidates with
        | [] => raise ValueError_no_company_column
        | col :: _ => (cells <- lift (getitem df col) ;; ret (dropna_strip cells))%io
        end
  end.

Definition required_cols : list string := ["Email"; "Company Name"].

(** The [Company Name] column of [df_pac], then the projection that drops
    the added columns. *)
Definition pac_row (m : marked) : row :=
  let r := base (cols (columns_of m)) in
  {| Email := Email r;
     Company_Name :=
       match suggested_company m with
       | Some s => if negb (String.eqb s "") then Text s else Company_Name r
       | None => Company_Name r
       end |}.

Definition main (w : world) (a : args) : IO unit :=
  (let input_path := input_csv a in
   if negb (exists_ w input_path) then raise (FileNotFoundError input_path)
   else
     emit (Stdout (Msg_lendo input_path)) ;;
     let df := read_csv w input_path in
     let missing := filter (fun c => negb (Py.mem c (columns df))) required_cols in
     match missing with
     | _ :: _ => raise (ValueError_missing_columns missing)
     | [] =>
         prospect_companies <- load_prospect_companies w (empresas_prospectadas a) ;;
         match prospect_companies with
         | _ :: _ =>
             emit (Stdout (Msg_carregadas
                            (List.length (nodup string_dec prospect_companies))))
         | [] => ret tt
         end ;;
         rows <- lift (rows_of df) ;;
         df_marked <- lift (mark_suspects rows prospect_companies) ;;
         let base := saida_base a in
         treated_path <- lift (Path.with_suffix base ".contatos_tratados.csv") ;;
         suspects_path <-
           lift (Path.with_suffix base ".contatos_suspeitos_isolados.csv") ;;
         emit (To_csv treated_path df_marked) ;;
         emit (To_csv suspects_path (filter is_suspect df_marked)) ;;
         let df_pac := map pac_row df_marked in
         pac_path <- lift (Path.with_suffix base "pac.csv") ;;
         emit (To_csv_pac pac_path df_pac) ;;
         emit (Stdout Msg_deu_certo)
     end)%io.

(** ** Definitions used to state the properties *)

(** The substring after the last [sep], by position. *)
Definition after_last (sep : ascii) (s : string) : string :=
  match Py.rfind sep s with
  | Some i => substring (S i) (String.length s - S i) s
  | None => s
  end.

(** The domain of a raw value, as the specification words it. *)
Definition domain_of (v : pyval) : option string :=
  match v with
  | PStr s =>
      if Py.contains "@" s
      then Some (Py.lower (Py.strip (after_last "@" s)))
      else None
  | _ => None
  end.

Definition derive_row (r : row) : derived :=
  derive r (domain_of (value_of (Email r))).

(** Boolean orders on group keys: an equality test and a strict total
    order. *)
Class StrictOrderB {K : Type} (eqb ltb : K -> K -> bool) : Prop := {
  eqb_eq : forall a b, eqb a b = true <-> a = b;
  ltb_irrefl : forall a, ltb a a = false;
  ltb_trans : forall a b c, ltb a b = true -> ltb b c = true -> ltb a c = true;
  ltb_connex : forall a b, ltb a b = false -> eqb a b = false -> ltb b a = true
}.

(** The value a frame of groups holds for key [k]. *)
Definition total_for {K : Type} (eqb : K -> K -> bool) (k : K)
    (gs : list (K * nat)) : nat :=
  list_sum (map snd (filter (fun g => eqb k (fst g)) gs)).

(** The sum of [val] over the rows of key [k]. *)
Definition rows_total {K R : Type} (eqb : K -> K -> bool) (key : R -> option K)
    (val : R -> nat) (k : K) (rows : list R) : nat :=
  list_sum (map val
              (filter (fun r => match key r with
                                | Some k' => eqb k k'
                                | None => false
                                end) rows)).

(** Groups in ascending key order. *)
Definition ascending {K : Type} (ltb : K -> K -> bool) (gs : list (K * nat))
    : Prop :=
  StronglySorted (fun a b => ltb (fst a) (fst b) = true) gs.

(** The order in which the sorted frame of a resolver lists its rows:
    ascending outer key, then descending count, then ascending inner key. *)
Definition top_order {R : Type} (key1 key2 : R -> string) (cnt : R -> nat)
    (x y : R) : Prop :=
  String.ltb (key1 x) (key1 y) = true
  \/ (key1 x = key1 y
      /\ (cnt y < cnt x
          \/ (cnt x = cnt y /\ String.ltb (key2 x) (key2 y) = true))).

(** The order of the groups a two-key [groupby] emits. *)
Definition group_order {R : Type} (key1 key2 : R -> string) (x y : R) : Prop :=
  pair_ltb (key1 x, key2 x) (key1 y, key2 y) = true.

(** How many rows of the table have domain [d] and the raw company cell
    [Text c]. *)
Definition occurrences_in_domain (df : list derived) (d c : string) : nat :=
  List.length
    (filter (fun r => match domain r, Company_Name (base r) with
                      | Some d', Text c' => String.eqb d' d && String.eqb c' c
                      | _, _ => false
                      end) df).

(** How many rows of the table have the trimmed spelling [c]. *)
Definition spelling_occurrences {R : Type} (Company_Name : R -> cell)
    (df : list R) (c : string) : nat :=
  List.length
    (filter (fun r => String.eqb (Py.strip (astype_str (Company_Name r))) c) df).

(** The (domain, Company Name) groups with their counts. *)
Definition domain_groups (df : list derived) : list ((string * string) * nat) :=
  Pd.groupby_size pair_eqb pair_ltb domain_company_key df.

(** The total of a domain: the sum of the counts of its groups. *)
Definition domain_total (df : list derived) (d : string) : nat :=
  rows_total String.eqb (fun s : (string * string) * nat => Some (fst (fst s)))
    snd d (domain_groups df).

Definition stat_of (df : list derived) (g : (string * string) * nat)
    : DomainStat :=
  {| st_domain := fst (fst g);
     st_company := snd (fst g);
     st_count := snd g;
     st_total := domain_total df (fst (fst g)) |}.

(** Row [r] belongs to the group of domain [d] and raw company [c]. *)
Definition in_group (d c : string) (r : derived) : bool :=
  match domain r, Company_Name (base r) with
  | Some d', Text c' => String.eqb d' d && String.eqb c' c
  | _, _ => false
  end.

(** The assignment a row of [stats] is renamed to. *)
Definition assignment_of (s : DomainStat) : DominantAssignment :=
  {| da_domain := st_domain s;
     dominant_company := st_company s;
     dominant_share := share s |}.

(** The tie-break as the specification words it: among the groups of a
    domain that have the largest count, the one met first in the rows. *)
Definition has_top_count (df : list derived) (d c : string) : bool :=
  forallb (fun r =>
             match domain_company_key r with
             | Some (d', c') =>
                 negb (String.eqb d' d)
                 || (occurrences_in_domain df d c' <=? occurrences_in_domain df d c)
             | None => true
             end) df.

Definition first_encountered_top (df : list derived) (d : string)
    : option string :=
  match find (fun r =>
                match domain_company_key r with
                | Some (d', c) => String.eqb d' d && has_top_count df d c
                | None => false
                end) df with
  | Some r => option_map snd (domain_company_key r)
  | None => None
  end.

Definition has_top_spelling {R : Type} (Company_Name : R -> cell) (df : list R)
    (c : string) : bool :=
  forallb (fun r =>
             let c' := Py.strip (astype_str (Company_Name r)) in
             negb (String.eqb (Py.lower c') (Py.lower c))
             || (spelling_occurrences Company_Name df c'
                 <=? spelling_occurrences Company_Name df c)) df.

Definition first_encountered_spelling {R : Type} (Company_Name : R -> cell)
    (df : list R) (n : string) : option string :=
  option_map (fun r => Py.strip (astype_str (Company_Name r)))
    (find (fun r =>
             let c := Py.strip (astype_str (Company_Name r)) in
             String.eqb (Py.lower c) n && has_top_spelling Company_Name df c) df).

(** Tables with a tie. *)
Definition tie_table : list row :=
  [ {| Email := Text "zoe@x.com"; Company_Name := Text "Zeta" |};
    {| Email := Text "al@x.com"; Company_Name := Text "Alpha" |} ].

Definition spelling_tie : list row :=
  [ {| Email := Text "a@x.com"; Company_Name := Text "acme" |};
    {| Email := Text "b@y.com"; Company_Name := Text "ACME" |} ].

(** A table whose company names carry a trailing blank. *)
Definition padded_table : list row :=
  [ {| Email := Text "ann@acme.com"; Company_Name := Text "Acme Inc " |};
    {| Email := Text "bob@acme.com"; Company_Name := Text "Acme Inc " |} ].

(** A table with two missing company names. *)
Definition missing_names : list row :=
  [ {| Email := Text "a@x.com"; Company_Name := NaN |};
    {| Email := Text "b@x.com"; Company_Name := NaN |};
    {| Email := Text "c@x.com"; Company_Name := Text "Acme" |} ].

(** An event that writes no file. *)
Definition is_print (ev : event) : bool :=
  match ev with Stdout _ => true | _ => false end.

(** A run whose input file has no Email column. *)
Definition world_without_email : world :=
  {| exists_ := fun _ => true;
     read_csv := fun _ =>
       {| columns := ["Name"; "Company Name"];
          data := [[Text "Ann"; Text "Acme"]] |};
     read_lines := fun _ => [] |}.

Definition default_args : args :=
  {| input_csv := "apollo.csv";
     empresas_prospectadas := None;
     saida_base := "apollo" |}.

Definition Qsum (l : list Q) : Q := fold_right Qplus 0%Q l.

(** The projection that removes every column [mark_suspects] added. *)
Definition strip_columns (m : marked) : row := base (cols (columns_of m)).

(** Which heuristic a reason comes from. *)
Definition is_dominance_reason (x : reason) : bool :=
  match x with Differs_from_dominant _ _ _ => true | _ => false end.
Definition is_canonical_reason (x : reason) : bool :=
  match x with Differs_from_canonical _ => true | _ => false end.

Definition flagged_by_dominance (m : marked) : bool :=
  existsb is_dominance_reason (suspect_reasons m).
Definition flagged_by_canonical (m : marked) : bool :=
  existsb is_canonical_reason (suspect_reasons m).

(** What each of heuristics 1 and 4 proposes for a row. *)
Definition suggestion_1 (m : marked) : option string :=
  if flagged_by_dominance m then get_dominant_company (columns_of m) else None.
Definition suggestion_4 (m : marked) : option string :=
  if flagged_by_canonical m then get_canonical_company (columns_of m) else None.

Fixpoint first_non_null (l : list (option string)) : option string :=
  match l with
  | [] => None
  | Some s :: _ => Some s
  | None :: t => first_non_null t
  end.

(** The domain-dominance rule on one row of the result, [dominant_df] being
    the assignments computed for the table. *)
Definition dominance_rule (dominant_df : list DominantAssignment) (m : marked)
    : Prop :=
  let r := columns_of m in
  (forall d a,
      get_domain r = Some d -> snd (fst r) = Some a ->
      In a dominant_df /\ da_domain a = d
      /\ (flagged_by_dominance m = true <->
          company_clean (cols r) <> dominant_company a
          /\ (DOMINANT_MIN_SHARE <= dominant_share a)%Q)
      /\ (flagged_by_dominance m = true ->
          In (Differs_from_dominant d (dominant_company a) (dominant_share a))
            (suspect_reasons m)
          /\ suggested_company m = Some (dominant_company a)))
  /\ (get_domain r = None ->
      flagged_by_dominance m = false
      /\ suggested_company m = suggestion_4 m).

(** The canonical-spelling rule and the priority of suggestions on one row. *)
Definition canonical_rule (m : marked) : Prop :=
  let r := columns_of m in
  (forall cc,
      get_canonical_company r = Some cc ->
      (flagged_by_canonical m = true <-> company_clean (cols r) <> cc)
      /\ (flagged_by_canonical m = true ->
          In (Differs_from_canonical cc) (suspect_reasons m)))
  /\ (get_canonical_company r = None -> flagged_by_canonical m = false)
  /\ suggested_company m = first_non_null [suggestion_1 m; suggestion_4 m].

(** A step of the loop body either leaves the three variables alone or sets
    the flag and appends exactly one reason. *)
Definition one_reason_per_flag (step : verdict -> verdict) : Prop :=
  forall v,
    step v = v
    \/ (v_is_suspect (step v) = true
        /\ exists x, v_reasons (step v) = v_reasons v ++ [x]).

Definition scenario_A : list row :=
  [ {| Email := Text "ann@acme.com"; Company_Name := Text "Acme Inc" |};
    {| Email := Text "bob@acme.com"; Company_Name := Text "Acme" |};
    {| Email := Text "cat@acme.com"; Company_Name := Text "Acme Inc" |};
    {| Email := Text "dan@acme.com"; Company_Name := Text "Acme Inc" |} ].

(** A string that does not begin with whitespace. *)
Definition no_leading_space (s : string) : Prop :=
  match s with
  | EmptyString => True
  | String c _ => Py.isspace c = false
  end.

(** The assignments the two left merges attach to a row of the frame. *)
Definition dominant_for (df : list derived) (l : derived)
    : option DominantAssignment :=
  match domain l with
  | Some d =>
      find (fun a => String.eqb d (da_domain a))
        (find_dominant_company_per_domain df)
  | None => None
  end.

Definition canonical_for (df : list derived) (l : derived)
    : option CanonicalAssignment :=
  find (fun a => String.eqb (company_norm l) (ca_company_norm a))
    (find_canonical_company_by_name (fun r => Company_Name (base r)) df).

(** The position of a reason in the order of evaluation. *)
Definition reason_rank (x : reason) : nat :=
  match x with
  | Differs_from_dominant _ _ _ => 1
  | Not_in_prospects => 2
  | Appears_once => 3
  | Differs_from_canonical _ => 4
  end.

Definition is_prospect_reason (x : reason) : bool :=
  match x with Not_in_prospects => true | _ => false end.

(** Two records of one company, spelled alike. *)
Definition consistent_table : list row :=
  [ {| Email := Text "ann@acme.com"; Company_Name := Text "Acme Inc" |};
    {| Email := Text "bob@acme.com"; Company_Name := Text "Acme Inc" |} ].

(** The events that only a completed run of [main] produces: the corrected
    table and the closing message. *)
Definition is_completion (ev : event) : bool :=
  match ev with
  | To_csv_pac _ _ => true
  | Stdout Msg_deu_certo => true
  | _ => false
  end.

Definition is_warning (ev : event) : bool :=
  match ev with
  | Stdout (Msg_aviso_nao_encontrado _) => true
  | _ => false
  end.

(** The same arguments, without allow-list. *)
Definition without_allow_list (a : args) : args :=
  {| input_csv := input_csv a;
     empresas_prospectadas := None;
     saida_base := saida_base a |}.

(** A run with a well-formed input and an allow-list path that names no
    file. *)
Definition world_with_input : world :=
  {| exists_ := fun p => String.eqb p "apollo.csv";
     read_csv := fun _ =>
       {| columns := ["Email"; "Company Name"];
          data := [[Text "ann@acme.com"; Text "Acme"]] |};
     read_lines := fun _ => [] |}.

Definition args_with_lost_list : args :=
  {| input_csv := "apollo.csv";
     empresas_prospectadas := Some "lista.txt";
     saida_base := "out/apollo" |}.

(** ** [juntar_csv.py] *)

(** The script that joins the CSV files of a folder.  [listdir] is what
    [os.listdir(pasta)] returns and [read arquivo] the frame [pd.read_csv]
    parses from that file of the folder.  [script] is the script when no
    call to the system raises, [run] the script with the calls that can
    raise. *)
Module Juntar.

Inductive event : Type :=
| Read_csv (arquivo : string)
| Ignored (arquivo : string)
| To_csv (path : string) (df : frame)
| Deu_certo.

Inductive outcome : Type :=
| Finished
| ValueError_no_objects_to_concatenate
| Raised_by_listdir
| Raised_by_read_csv (arquivo : string)
| Raised_by_to_csv.

Definition reverse (s : string) : string :=
  string_of_list_ascii (rev (list_ascii_of_string s)).

(** [s.endswith(suffix)] *)
Definition endswith (suffix s : string) : bool :=
  prefix (reverse suffix) (reverse s).

(** [list(df.columns) != list(first.columns)] *)
Definition header_differs (df first : frame) : bool :=
  if list_eq_dec string_dec (columns df) (columns first) then false else true.

(** The loop over [arquivos], from the frames kept so far. *)
Fixpoint collect (read : string -> frame) (arquivos : list string)
    (dfs : list frame) (tr : list event) : list frame * list event :=
  match arquivos with
  | [] => (dfs, tr)
  | arquivo :: rest =>
      let df := read arquivo in
      let tr := tr ++ [Read_csv arquivo] in
      match dfs with
      | first :: _ =>
          if header_differs df first
          then collect read rest dfs (tr ++ [Ignored arquivo])
          else collect read rest (dfs ++ [df]) tr
      | [] => collect read rest (dfs ++ [df]) tr
      end
  end.

(** [pd.concat(dfs, ignore_index=True)] for frames that share their header,
    which is all the script hands it; it raises on an empty list. *)
Definition concat (dfs : list frame) : option frame :=
  match dfs with
  | [] => None
  | first :: _ =>
      Some {| columns := columns first; data := flat_map data dfs |}
  end.

Definition resultado : string := "inovation\resultado.csv".

Definition script (listdir : list string) (read : string -> frame)
    : list event * outcome :=
  let arquivos := filter (endswith ".csv") listdir in
  let (dfs, tr) := collect read arquivos [] [] in
  match concat dfs with
  | None => (tr, ValueError_no_objects_to_concatenate)
  | Some df_final => (tr ++ [To_csv resultado df_final; Deu_certo], Finished)
  end.

(** The script with the calls that can raise: [listdir] is what
    [os.listdir(pasta)] returns, [read f] what [pd.read_csv] parses from
    file [f] and [write path df] whether [df.to_csv(path)] goes through;
    [None] and [false] stand for a call that raises, which ends the
    script there. *)
Fixpoint run_loop (read : string -> option frame) (arquivos : list string)
    (dfs : list frame) (tr : list event) : list event * (list frame + outcome) :=
  match arquivos with
  | [] => (tr, inl dfs)
  | arquivo :: rest =>
      let tr := tr ++ [Read_csv arquivo] in
      match read arquivo with
      | None => (tr, inr (Raised_by_read_csv arquivo))
      | Some df =>
          match dfs with
          | first :: _ =>
              if header_differs df first
              then run_loop read rest dfs (tr ++ [Ignored arquivo])
              else run_loop read rest (dfs ++ [df]) tr
          | [] => run_loop read rest (dfs ++ [df]) tr
          end
      end
  end.

Definition run (listdir : option (list string)) (read : string -> option frame)
    (write : string -> frame -> bool) : list event * outcome :=
  match listdir with
  | None => ([], Raised_by_listdir)
  | Some names =>
      let arquivos := filter (endswith ".csv") names in
      match run_loop read arquivos [] [] with
      | (tr, inr e) => (tr, e)
      | (tr, inl dfs) =>
          match concat dfs with
          | None => (tr, ValueError_no_objects_to_concatenate)
          | Some df_final =>
              if write resultado df_final
              then (tr ++ [To_csv resultado df_final; Deu_certo], Finished)
              else (tr, Raised_by_to_csv)
          end
      end
  end.

(** The effects of the loop on one file, [first] being the first CSV file. *)
Definition effects_of (read : string -> frame) (first : frame)
    (arquivo : string) : list event :=
  Read_csv arquivo
  :: (if header_differs (read arquivo) first then [Ignored arquivo] else []).

End Juntar.

(** A folder with two tables of one header, one of another, and a file
    that is no CSV. *)
Definition folder : list string := ["a.csv"; "notes.txt"; "b.csv"; "c.csv"].

Definition folder_read (arquivo : string) : frame :=
  if String.eqb arquivo "b.csv"
  then {| columns := ["Name"]; data := [[Text "x"]] |}
  else {| columns := ["Email"; "Company Name"];
          data := [[Text arquivo; Text "Acme"]] |}.

(** What the system answers about [folder]: the files listed are parsed,
    any other read raises, and a write goes through under the path of the
    result only. *)
Definition folder_parse (arquivo : string) : option frame :=
  if Py.mem arquivo folder then Some (folder_read arquivo) else None.

Definition folder_write (path : string) (df : frame) : bool :=
  String.eqb path Juntar.resultado.

(** The events of the loop of [juntar_csv.py]. *)
Definition is_reading (ev : Juntar.event) : bool :=
  match ev with
  | Juntar.Read_csv _ | Juntar.Ignored _ => true
  | _ => false
  end.

(** How many records of domain [d] have a company name. *)
Definition named_in_domain (df : list derived) (d : string) : nat :=
  List.length
    (filter (fun r => match domain r, Company_Name (base r) with
                      | Some d', Text _ => String.eqb d d'
                      | _, _ => false
                      end) df).

(** The sum of the values of the groups whose key satisfies [q]. *)
Definition sum_where {K : Type} (q : K -> bool) (gs : list (K * nat)) : nat :=
  list_sum (map snd (filter (fun g => q (fst g)) gs)).

(** Scenario D: three records spelled Globex Corp and one spelled
    globex corp, the latter alone on its domain. *)
Definition scenario_D : list row :=
  [ {| Email := Text "ann@globex.com"; Company_Name := Text "Globex Corp" |};
    {| Email := Text "bob@globex.com"; Company_Name := Text "Globex Corp" |};
    {| Email := Text "cat@globex.com"; Company_Name := Text "Globex Corp" |};
    {| Email := Text "dan@other.org"; Company_Name := Text "globex corp" |} ].

(** A table whose fourth record is proposed one name by heuristic 1 and
    another by heuristic 4. *)
Definition scenario_priority : list row :=
  [ {| Email := Text "ann@initech.com"; Company_Name := Text "Initech" |};
    {| Email := Text "bob@initech.com"; Company_Name := Text "Initech" |};
    {| Email := Text "cat@initech.com"; Company_Name := Text "Initech" |};
    {| Email := Text "dan@initech.com"; Company_Name := Text "globex corp" |};
    {| Email := Text "eve@globex.com"; Company_Name := Text "Globex Corp" |};
    {| Email := Text "fay@globex.com"; Company_Name := Text "Globex Corp" |} ].

(** The canonical-spelling rule on one row of the result, against the
    assignments [canonical_df] the resolver computed for the table: the row
    carries the one assignment of its company_norm, and heuristic 4 fires
    exactly when company_clean differs from the canonical company of that
    assignment. *)
Definition canonical_assignment_rule (canonical_df : list CanonicalAssignment)
    (m : marked) : Prop :=
  let r := columns_of m in
  exists a,
    snd r = Some a
    /\ In a canonical_df
    /\ ca_company_norm a = company_norm (cols r)
    /\ (forall a', In a' canonical_df ->
                   ca_company_norm a' = company_norm (cols r) -> a' = a)
    /\ get_canonical_company r = Some (canonical_company a)
    /\ (flagged_by_canonical m = true <->
        company_clean (cols r) <> canonical_company a)
    /\ (flagged_by_canonical m = true ->
        In (Differs_from_canonical (canonical_company a)) (suspect_reasons m))
    /\ suggestion_4 m
       = (if flagged_by_canonical m then Some (canonical_company a) else None).

(** A message a run prints before it writes. *)
Definition is_notice (ev : event) : bool :=
  is_print ev && negb (is_completion ev).

(** * Properties *)

(** ** Strings *)

Lemma substring_all (s : string) : substring 0 (String.length s) s = s.
Proof.
  induction s as [|c t IH]; simpl; [reflexivity | now rewrite IH].
Qed.

Lemma rfind_none_contains (sep : ascii) (s : string) :
  Py.rfind sep s = None <-> Py.contains sep s = false.
Proof.
  induction s as [|c t IH]; simpl; [tauto|].
  destruct (Py.rfind sep t) as [i|].
  - destruct (Py.contains sep t).
    + rewrite orb_true_r. split; discriminate.
    + destruct IH as [_ IH]. specialize (IH eq_refl). discriminate.
  - destruct IH as [IH _]. rewrite (IH eq_refl), orb_false_r.
    destruct (Ascii.eqb c sep); split; congruence.
Qed.

Lemma split_not_nil (sep : ascii) (s : string) : Py.split sep s <> [].
Proof.
  destruct s as [|c t]; simpl; [discriminate|].
  destruct (Ascii.eqb c sep); [discriminate|].
  destruct (Py.split sep t); discriminate.
Qed.

Lemma last_cons_not_nil {A : Type} (x : A) (l : list A) (d : A) :
  l <> [] -> last (x :: l) d = last l d.
Proof. destruct l; [congruence | reflexivity]. Qed.

(** The last piece of [s.split(sep)] is the text after the last [sep]. *)
Lemma last_split (sep : ascii) (s : string) :
  last (Py.split sep s) EmptyString = after_last sep s.
Proof.
  unfold after_last.
  induction s as [|c t IH]; [reflexivity|].
  cbn [Py.split Py.rfind].
  destruct (Py.rfind sep t) as [i|] eqn:Hr.
  - assert (Hlen : String.length (String c t) - S (S i) = String.length t - S i)
      by reflexivity.
    rewrite Hlen. cbn [substring]. rewrite <- IH.
    destruct (Ascii.eqb c sep).
    + apply last_cons_not_nil, split_not_nil.
    + destruct (Py.split sep t) as [|h r] eqn:Hs;
        [exfalso; eapply split_not_nil; eassumption|].
      destruct r as [|h' r'].
      * (* a single piece would mean no separator in [t] *)
        exfalso. clear IH Hlen.
        assert (Hc : Py.contains sep t = true).
        { destruct (Py.contains sep t) eqn:E; [reflexivity|].
          apply rfind_none_contains in E. congruence. }
        clear Hr. revert h Hs Hc.
        induction t as [|a u IHu]; intros h Hs Hc; [discriminate|].
        cbn [Py.split Py.contains] in *.
        destruct (Ascii.eqb a sep).
        -- destruct (Py.split sep u) eqn:Eu; [|discriminate].
           eapply split_not_nil; eassumption.
        -- simpl in Hc.
           destruct (Py.split sep u) as [|h2 r2] eqn:Eu;
             [eapply split_not_nil; eassumption|].
           destruct r2; [|discriminate].
           eapply IHu; [reflexivity | assumption].
      * reflexivity.
  - destruct (Ascii.eqb c sep) eqn:Hc.
    + rewrite last_cons_not_nil by apply split_not_nil.
      rewrite IH. cbn [String.length]. rewrite Nat.sub_succ, Nat.sub_0_r.
      cbn [substring]. now rewrite substring_all.
    + assert (Hone : Py.split sep t = [t]).
      { clear IH Hc. revert Hr.
        induction t as [|a u IHu]; intros Hr; [reflexivity|].
        cbn [Py.split Py.rfind] in *.
        destruct (Py.rfind sep u) eqn:Eu; [discriminate|].
        destruct (Ascii.eqb a sep); [discriminate|].
        now rewrite (IHu eq_refl). }
      now rewrite Hone.
Qed.

Lemma getitem_last_ok {A : Type} (l : list A) (d : A) :
  l <> [] -> Py.getitem_last l = Ok (last l d).
Proof.
  intros Hl. unfold Py.getitem_last.
  destruct l as [|x t] using rev_ind; [congruence|].
  rewrite length_app, Nat.add_comm. cbn [List.length Nat.add].
  rewrite Nat.sub_succ, Nat.sub_0_r.
  rewrite nth_error_app2 by lia. rewrite Nat.sub_diag. cbn.
  now rewrite last_last.
Qed.

Lemma extract_domain_ok (v : pyval) : extract_domain v = Ok (domain_of v).
Proof.
  destruct v as [s| | |z]; try reflexivity.
  unfold extract_domain, domain_of.
  destruct (Py.contains "@" s); [|reflexivity].
  cbn [negb].
  rewrite (getitem_last_ok _ EmptyString) by apply split_not_nil.
  cbn [rbind]. now rewrite last_split.
Qed.

(** C8. For every raw value the domain extractor returns, without raising:
    for a string that contains an at-sign, the substring after the last
    at-sign, trimmed and then lowercased; for a string without at-sign and
    for any value that is not a string, absent. *)
Theorem extract_domain_contract (v : pyval) :
  extract_domain v =
  Ok (match v with
      | PStr s =>
          if Py.contains "@" s
          then Some (Py.lower (Py.strip (after_last "@" s)))
          else None
      | _ => None
      end).
Proof. apply extract_domain_ok. Qed.

(** ** The derived columns *)

Lemma apply_ok {A B : Type} (f : A -> result B) (g : A -> B) (l : list A) :
  (forall x, f x = Ok (g x)) -> Pd.apply f l = Ok (map g l).
Proof.
  intros H. induction l as [|x t IH]; [reflexivity|].
  cbn [Pd.apply map]. rewrite H, IH. reflexivity.
Qed.

Lemma combine_map_self {A B C : Type} (F : A -> B -> C) (g : A -> B) (l : list A) :
  map (fun ab => F (fst ab) (snd ab)) (combine l (map g l))
  = map (fun a => F a (g a)) l.
Proof.
  induction l as [|x t IH]; [reflexivity|]. cbn. now rewrite IH.
Qed.

Lemma derived_columns_ok (df : list row) :
  derived_columns df = Ok (map derive_row df).
Proof.
  unfold derived_columns.
  rewrite (apply_ok _ domain_of) by apply extract_domain_ok.
  cbn [rbind]. rewrite map_map.
  now rewrite (combine_map_self derive (fun r => domain_of (value_of (Email r)))).
Qed.

Lemma mark_suspects_ok (df : list row) (P : list string) :
  mark_suspects df P =
  Ok (map (mark_row P (Pd.value_counts_get String.eqb
                         (map company_clean (map derive_row df))))
        (merge_assignments (map derive_row df))).
Proof.
  unfold mark_suspects. now rewrite derived_columns_ok.
Qed.

(** ** The loop body, row by row *)

Lemma merge_left_In {K L R : Type} (eqb : K -> K -> bool)
    (kl : L -> option K) (kr : R -> K) (left : list L) (right : list R) l o :
  (forall a b, eqb a b = true -> a = b) ->
  In (l, o) (Pd.merge_left eqb kl kr left right) ->
  In l left /\ (forall r, o = Some r -> In r right /\ kl l = Some (kr r)).
Proof.
  intros Heq Hin. unfold Pd.merge_left in Hin.
  apply in_flat_map in Hin. destruct Hin as [l0 [Hl0 Hin]].
  destruct (kl l0) as [k|] eqn:Hk.
  - destruct (filter (fun r => eqb k (kr r)) right) as [|r0 ms] eqn:Hf.
    + destruct Hin as [E|[]]. inversion E; subst. split; [assumption|].
      intros r Hr; discriminate.
    + rewrite <- Hf in Hin. apply in_map_iff in Hin.
      destruct Hin as [r [E Hr]]. inversion E; subst.
      apply filter_In in Hr. destruct Hr as [Hr Hm].
      split; [assumption|]. intros r' E'. inversion E'; subst.
      split; [assumption|]. rewrite Hk. f_equal. now apply Heq.
  - destruct Hin as [E|[]]. inversion E; subst. split; [assumption|].
    intros r Hr; discriminate.
Qed.

Lemma String_eqb_true (a b : string) : String.eqb a b = true -> a = b.
Proof. apply String.eqb_eq. Qed.

Lemma merged_dominant_In (df : list derived) (r : merged) d a :
  In r (merge_assignments df) ->
  get_domain r = Some d -> snd (fst r) = Some a ->
  In a (find_dominant_company_per_domain df) /\ da_domain a = d.
Proof.
  intros Hin Hd Ha. unfold merge_assignments in Hin.
  destruct r as [[l o1] o2]. cbn in Hd, Ha. subst o1.
  apply (merge_left_In _ _ _ _ _ _ _ String_eqb_true) in Hin.
  destruct Hin as [Hin _].
  apply (merge_left_In _ _ _ _ _ _ _ String_eqb_true) in Hin.
  destruct Hin as [_ Hin]. destruct (Hin a eq_refl) as [Hi Hk].
  split; [assumption|]. unfold get_domain, cols in Hd. cbn in Hd. congruence.
Qed.

Ltac open_row r :=
  destruct r as [[l [a|]] [c|]];
  unfold suggestion_1, suggestion_4, flagged_by_dominance,
    flagged_by_canonical, mark_row, loop_body, check_canonical,
    check_singleton, check_prospects, check_dominant,
    get_domain, get_dominant_company, get_dominant_share,
    get_canonical_company, cols;
  cbn [columns_of is_suspect suspect_reasons suggested_company fst snd
       option_map].

Ltac split_ifs :=
  repeat match goal with
    | |- context [match domain ?l with _ => _ end] => destruct (domain l) eqn:?
    | |- context [match ?P with [] => _ | _ :: _ => _ end] =>
        is_var P; destruct P eqn:?
    | |- context [if ?b then _ else _] => destruct b eqn:?
    end;
  cbn [v_is_suspect v_reasons v_suggest verdict0 app existsb
       is_dominance_reason is_canonical_reason orb first_non_null
       columns_of is_suspect suspect_reasons suggested_company fst snd
       option_map].

Lemma mark_row_flag (P : list string) (counts : string -> nat) (r : merged) :
  let m := mark_row P counts r in
  is_suspect m = negb (List.length (suspect_reasons m) =? 0).
Proof.
  open_row r; split_ifs; reflexivity.
Qed.

Lemma negb_eqb_true (a b : string) : negb (String.eqb a b) = true <-> a <> b.
Proof.
  rewrite negb_true_iff. apply String.eqb_neq.
Qed.

Lemma negb_eqb_false (a b : string) : negb (String.eqb a b) = false <-> a = b.
Proof.
  rewrite negb_false_iff. apply String.eqb_eq.
Qed.

Lemma mark_row_canonical (P : list string) (counts : string -> nat) (r : merged) :
  canonical_rule (mark_row P counts r).
Proof.
  unfold canonical_rule.
  open_row r; split_ifs;
    repeat split; intros;
    repeat match goal with
      | H : Some _ = Some _ |- _ => inversion H; subst; clear H
      | H : negb (String.eqb _ _ && _) = _ |- _ => idtac
      | H : negb (String.eqb _ _) = true |- _ => apply negb_eqb_true in H
      | H : negb (String.eqb _ _) = false |- _ => apply negb_eqb_false in H
      end;
    try discriminate; try congruence; try reflexivity; auto;
    try (cbn; now auto).
Qed.

Lemma dominance_test (clean dc : string) (sh : Q) :
  negb (String.eqb clean dc) && Qle_bool DOMINANT_MIN_SHARE sh = true
  <-> clean <> dc /\ (DOMINANT_MIN_SHARE <= sh)%Q.
Proof.
  rewrite andb_true_iff, negb_eqb_true, Qle_bool_iff. tauto.
Qed.

Lemma mark_row_dominance (ddf : list DominantAssignment) (P : list string)
    (counts : string -> nat) (r : merged) :
  (forall d a, get_domain r = Some d -> snd (fst r) = Some a ->
               In a ddf /\ da_domain a = d) ->
  dominance_rule ddf (mark_row P counts r).
Proof.
  intros Hlink. unfold dominance_rule. split.
  - intros d a0 Hd Ha. cbn [columns_of mark_row] in Hd, Ha.
    destruct (Hlink d a0 Hd Ha) as [Hin Hdom].
    split; [assumption|]. split; [assumption|].
    rewrite <- dominance_test.
    clear Hlink Hin Hdom. revert Hd Ha.
    open_row r; intros Hd Ha; try discriminate;
      inversion Ha; subst; rewrite Hd;
      split_ifs; repeat split; intros; try discriminate; try congruence;
      try reflexivity; cbn; auto.
  - clear Hlink. cbn [columns_of mark_row].
    open_row r; intros Hd; rewrite Hd; split_ifs; repeat split;
      try congruence; cbn in *; discriminate.
Qed.

Lemma mark_row_dominance_indep (P : list string) (counts : string -> nat)
    (r : merged) :
  flagged_by_dominance (mark_row P counts r)
  = flagged_by_dominance (mark_row [] (fun _ => 0) r)
  /\ suggestion_1 (mark_row P counts r)
     = suggestion_1 (mark_row [] (fun _ => 0) r).
Proof.
  open_row r; split_ifs; split; reflexivity || (cbn in *; congruence).
Qed.

Lemma check_dominant_step (r : merged) : one_reason_per_flag (check_dominant r).
Proof.
  intros v. unfold check_dominant.
  destruct (get_domain r), (get_dominant_company r), (get_dominant_share r);
    auto.
  destruct (_ && _); [right|left]; cbn; eauto.
Qed.

Lemma check_prospects_step (P : list string) (r : merged) :
  one_reason_per_flag (check_prospects P r).
Proof.
  intros v. unfold check_prospects. destruct P; auto.
  destruct (negb _); [right|left]; cbn; eauto.
Qed.

Lemma check_singleton_step (counts : string -> nat) (r : merged) :
  one_reason_per_flag (check_singleton counts r).
Proof.
  intros v. unfold check_singleton.
  destruct (_ =? _); [right|left]; cbn; eauto.
Qed.

Lemma check_canonical_step (r : merged) : one_reason_per_flag (check_canonical r).
Proof.
  intros v. unfold check_canonical. destruct (get_canonical_company r); auto.
  destruct (negb _); [right|left]; cbn; eauto.
Qed.

Lemma Forall_merged (Q : merged -> Prop) (df : list derived) :
  (forall r, In r (merge_assignments df) -> Q r) ->
  Forall Q (merge_assignments df).
Proof. intros H. now apply Forall_forall. Qed.

(** C1. Every table is classified, and on every row of the result: when the
    domain is present and the row carries a dominant assignment (which is
    then the one computed for its domain), the domain-dominance heuristic
    fires exactly when company_clean differs from the dominant company and
    the dominant share is at least DOMINANT_MIN_SHARE; when it fires it
    records its reason and the suggestion is the dominant company; when the
    domain is absent it records no reason and leaves the suggestion to the
    canonical-spelling heuristic.  In scenario A (three records of Acme Inc
    and one of Acme on acme.com), whatever the allow-list, the heuristic
    flags the Acme record only, and that record is suggested Acme Inc. *)
Theorem dominance_heuristic (df : list row) (P : list string) :
  (exists out,
      mark_suspects df P = Ok out
      /\ Forall (dominance_rule
                   (find_dominant_company_per_domain (map derive_row df))) out)
  /\ (exists out,
         mark_suspects scenario_A P = Ok out
         /\ map (fun m => company_clean (cols (columns_of m))) out
            = ["Acme Inc"; "Acme"; "Acme Inc"; "Acme Inc"]
         /\ map (fun m => get_dominant_share (columns_of m)) out
            = [Some (3 # 4); Some (3 # 4); Some (3 # 4); Some (3 # 4)]%Q
         /\ map flagged_by_dominance out = [false; true; false; false]
         /\ map suggestion_1 out = [None; Some "Acme Inc"; None; None]
         /\ nth_error (map suggested_company out) 1 = Some (Some "Acme Inc")).
Proof.
  split.
  - eexists. split; [apply mark_suspects_ok|].
    apply Forall_map. apply Forall_merged. intros r Hr.
    apply mark_row_dominance. intros d a Hd Ha.
    eapply merged_dominant_In; eassumption.
  - eexists. split; [apply mark_suspects_ok|].
    rewrite !map_map.
    let v := eval vm_compute in (merge_assignments (map derive_row scenario_A)) in
    assert (Hm : merge_assignments (map derive_row scenario_A) = v)
      by (vm_compute; reflexivity).
    rewrite Hm. cbn [map].
    repeat split.
    + rewrite !(proj1 (mark_row_dominance_indep P _ _)). reflexivity.
    + rewrite !(proj2 (mark_row_dominance_indep P _ _)). reflexivity.
    + cbn [nth_error].
      match goal with
      | |- Some (suggested_company (mark_row _ ?c ?r)) = _ =>
          pose proof (proj2 (proj2 (mark_row_canonical P c r))) as Hs;
          pose proof (proj2 (mark_row_dominance_indep P c r)) as H1
      end.
      rewrite Hs. cbn [first_non_null]. rewrite H1. reflexivity.
Qed.

(** C3. Every table is classified, and for every row of the result
    is_suspect is true if and only if the list of reasons is not empty.
    Each of the four heuristics either leaves the flag, the reasons and the
    suggestion as they are, or sets the flag and appends exactly one
    reason. *)
Theorem suspect_iff_reasons (df : list row) (P : list string) :
  (exists out,
      mark_suspects df P = Ok out
      /\ Forall (fun m => is_suspect m = true <-> suspect_reasons m <> []) out
      /\ Forall (fun m => is_suspect m
                          = negb (List.length (suspect_reasons m) =? 0)) out)
  /\ (forall counts r,
         one_reason_per_flag (check_dominant r)
         /\ one_reason_per_flag (check_prospects P r)
         /\ one_reason_per_flag (check_singleton counts r)
         /\ one_reason_per_flag (check_canonical r)).
Proof.
  split.
  - eexists. split; [apply mark_suspects_ok|].
    split; apply Forall_map, Forall_forall; intros r _.
    + pose proof (mark_row_flag P
        (Pd.value_counts_get String.eqb (map company_clean (map derive_row df))) r)
        as H.
      cbv zeta in H. rewrite H.
      destruct (suspect_reasons _); cbn; split; congruence.
    + apply mark_row_flag.
  - intros counts r.
    auto using check_dominant_step, check_prospects_step,
      check_singleton_step, check_canonical_step.
Qed.

(** ** Orders on strings and on pairs of strings *)

Lemma String_compare_refl (a : string) : String.compare a a = Eq.
Proof. now apply String_as_OT.cmp_eq. Qed.

Lemma String_ltb_lt (a b : string) :
  String.ltb a b = true <-> String_as_OT.lt a b.
Proof.
  unfold String.ltb. rewrite <- String_as_OT.cmp_lt. unfold String_as_OT.cmp.
  destruct (String.compare a b); split; congruence.
Qed.

#[export] Instance string_order : StrictOrderB String.eqb String.ltb.
Proof.
  constructor.
  - apply String.eqb_eq.
  - intros a. unfold String.ltb. now rewrite String_compare_refl.
  - intros a b c. rewrite !String_ltb_lt. apply String_as_OT.lt_trans.
  - intros a b Hlt Hne. apply String.eqb_neq in Hne.
    unfold String.ltb in *. rewrite String_as_OT.cmp_antisym.
    unfold String_as_OT.cmp.
    destruct (String.compare a b) eqn:E; try discriminate; [|reflexivity].
    apply String_as_OT.cmp_eq in E. contradiction.
Qed.

Lemma pair_eqb_eq (a b : string * string) : pair_eqb a b = true <-> a = b.
Proof.
  destruct a as [a1 a2], b as [b1 b2]. unfold pair_eqb. cbn [fst snd].
  rewrite andb_true_iff, !String.eqb_eq. split.
  - intros [-> ->]. reflexivity.
  - intros E. inversion E. auto.
Qed.

#[export] Instance pair_order : StrictOrderB pair_eqb pair_ltb.
Proof.
  constructor.
  - apply pair_eqb_eq.
  - intros [a1 a2]. unfold pair_ltb. cbn [fst snd].
    now rewrite !(ltb_irrefl (ltb := String.ltb)), andb_false_r.
  - intros [a1 a2] [b1 b2] [c1 c2]. unfold pair_ltb. cbn [fst snd].
    rewrite !orb_true_iff, !andb_true_iff, !String.eqb_eq.
    intros [H1|[-> H1]] [H2|[E2 H2]]; subst.
    + left. eapply ltb_trans; eassumption.
    + now left.
    + now left.
    + right. split; [reflexivity|]. eapply ltb_trans; eassumption.
  - intros [a1 a2] [b1 b2]. unfold pair_ltb, pair_eqb. cbn [fst snd].
    rewrite !orb_false_iff, !andb_false_iff, orb_true_iff, andb_true_iff.
    intros [H1 H2] H3.
    destruct (String.eqb a1 b1) eqn:E1.
    + apply String.eqb_eq in E1. subst b1. right.
      rewrite String.eqb_refl. split; [reflexivity|].
      destruct H2 as [H2|H2]; [discriminate|].
      destruct H3 as [H3|H3]; [discriminate|].
      now apply ltb_connex.
    + left. now apply ltb_connex.
Qed.

(** ** [groupby] *)

Section GroupbyFacts.
Context {K : Type} {eqb ltb : K -> K -> bool} `{!StrictOrderB eqb ltb}.

Lemma eqb_refl_K (k : K) : eqb k k = true.
Proof. now apply eqb_eq. Qed.

Lemma eqb_false_K (a b : K) : eqb a b = false <-> a <> b.
Proof.
  rewrite <- (eqb_eq (eqb := eqb)). destruct (eqb a b); split; congruence.
Qed.

Lemma total_for_add_group (k k' : K) (n : nat) (gs : list (K * nat)) :
  total_for eqb k (Pd.add_group eqb ltb k' n gs)
  = total_for eqb k gs + (if eqb k k' then n else 0).
Proof.
  unfold total_for, list_sum.
  induction gs as [|[k1 m] t IH]; cbn [Pd.add_group].
  - cbn. destruct (eqb k k'); cbn; lia.
  - destruct (eqb k' k1) eqn:E1.
    + apply eqb_eq in E1. subst k1. cbn [filter fst].
      destruct (eqb k k'); cbn; lia.
    + destruct (ltb k' k1).
      * cbn [filter fst].
        destruct (eqb k k'), (eqb k k1); cbn [map list_sum fold_right snd]; lia.
      * cbn [filter fst] in *.
        destruct (eqb k k1); cbn [map list_sum fold_right snd]; rewrite IH; lia.
Qed.

Lemma add_group_keys (k : K) (n : nat) (gs : list (K * nat)) (x : K) :
  In x (map fst (Pd.add_group eqb ltb k n gs)) <-> x = k \/ In x (map fst gs).
Proof.
  induction gs as [|[k1 m] t IH]; cbn [Pd.add_group].
  - cbn. intuition.
  - destruct (eqb k k1) eqn:E1.
    + apply eqb_eq in E1. subst k1. cbn. intuition.
    + destruct (ltb k k1); cbn [map fst In] in *; [intuition|].
      rewrite IH. intuition.
Qed.

Lemma add_group_ascending (k : K) (n : nat) (gs : list (K * nat)) :
  ascending ltb gs -> ascending ltb (Pd.add_group eqb ltb k n gs).
Proof.
  unfold ascending.
  induction gs as [|[k1 m] t IH]; intros Hs; cbn [Pd.add_group].
  - repeat constructor.
  - apply StronglySorted_inv in Hs. destruct Hs as [Ht Hall].
    destruct (eqb k k1) eqn:E1; [|destruct (ltb k k1) eqn:E2].
    + constructor; assumption.
    + constructor; [constructor; assumption|].
      constructor; [assumption|].
      rewrite Forall_forall in *. intros y Hy. cbn [fst] in *.
      eapply ltb_trans; [exact E2|]. now apply Hall.
    + constructor; [now apply IH|].
      rewrite Forall_forall in *. intros y Hy. cbn [fst].
      assert (Hk : In (fst y) (map fst (Pd.add_group eqb ltb k n t)))
        by now apply in_map.
      apply add_group_keys in Hk. destruct Hk as [->|Hk].
      * apply ltb_connex; [assumption|].
        apply eqb_false_K. apply eqb_false_K in E1. congruence.
      * apply in_map_iff in Hk. destruct Hk as [z [Ez Hz]].
        rewrite <- Ez. now apply (Hall z).
Qed.

Lemma ascending_NoDup (gs : list (K * nat)) :
  ascending ltb gs -> NoDup (map fst gs).
Proof.
  unfold ascending. induction 1 as [|g t Ht IH Hall]; cbn; constructor; auto.
  intros Hin. apply in_map_iff in Hin. destruct Hin as [z [Ez Hz]].
  rewrite Forall_forall in Hall. specialize (Hall z Hz).
  rewrite Ez, ltb_irrefl in Hall. discriminate.
Qed.

Lemma total_for_absent (k : K) (gs : list (K * nat)) :
  ~ In k (map fst gs) -> total_for eqb k gs = 0.
Proof.
  unfold total_for. induction gs as [|[k1 m] t IH]; intros Hn; [reflexivity|].
  cbn [filter fst]. cbn in Hn.
  destruct (eqb k k1) eqn:E.
  - apply eqb_eq in E. subst. tauto.
  - apply IH. tauto.
Qed.

Lemma total_for_cons (k : K) (g : K * nat) (gs : list (K * nat)) :
  total_for eqb k (g :: gs)
  = (if eqb k (fst g) then snd g else 0) + total_for eqb k gs.
Proof.
  unfold total_for. cbn [filter]. now destruct (eqb k (fst g)).
Qed.

Lemma total_for_In (k : K) (n : nat) (gs : list (K * nat)) :
  NoDup (map fst gs) -> In (k, n) gs -> total_for eqb k gs = n.
Proof.
  induction gs as [|[k1 m] t IH]; intros Hnd Hin; [contradiction|].
  cbn in Hnd. apply NoDup_cons_iff in Hnd. destruct Hnd as [Hk1 Hnd].
  rewrite total_for_cons. cbn [fst snd].
  destruct Hin as [E|Hin].
  - inversion E; subst. rewrite eqb_refl_K.
    rewrite total_for_absent by assumption. lia.
  - destruct (eqb k k1) eqn:E.
    + apply eqb_eq in E. subst k1. exfalso. apply Hk1.
      change k with (fst (k, n)). now apply in_map.
    + now apply IH.
Qed.

Section Fold.
Context {R : Type} (key : R -> option K) (val : R -> nat).

Let step (gs : list (K * nat)) (r : R) : list (K * nat) :=
  match key r with
  | Some k => Pd.add_group eqb ltb k (val r) gs
  | None => gs
  end.

Lemma fold_total (k : K) (rows : list R) (acc : list (K * nat)) :
  total_for eqb k (fold_left step rows acc)
  = total_for eqb k acc + rows_total eqb key val k rows.
Proof.
  revert acc. unfold rows_total, list_sum.
  induction rows as [|r t IH]; intros acc; cbn [fold_left filter].
  - cbn. lia.
  - rewrite IH. unfold step.
    destruct (key r) as [k'|].
    + rewrite total_for_add_group.
      destruct (eqb k k'); cbn [map fold_right]; lia.
    + reflexivity.
Qed.

Lemma fold_keys (k : K) (rows : list R) (acc : list (K * nat)) :
  In k (map fst (fold_left step rows acc))
  <-> In k (map fst acc) \/ exists r, In r rows /\ key r = Some k.
Proof.
  revert acc.
  induction rows as [|r t IH]; intros acc; cbn [fold_left].
  - split; [auto|]. intros [H|[r [[] _]]]. assumption.
  - rewrite IH. unfold step. split.
    + intros [H|[r' [Hr' Hk]]].
      * destruct (key r) as [k'|] eqn:Ek; [|auto].
        apply add_group_keys in H. destruct H as [->|H]; [|auto].
        right. exists r. cbn. auto.
      * right. exists r'. cbn. auto.
    + intros [H|[r' [[->|Hr'] Hk]]].
      * left. destruct (key r); [|assumption].
        apply add_group_keys. auto.
      * left. rewrite Hk. apply add_group_keys. auto.
      * right. eauto.
Qed.

Lemma fold_ascending (rows : list R) (acc : list (K * nat)) :
  ascending ltb acc -> ascending ltb (fold_left step rows acc).
Proof.
  revert acc. induction rows as [|r t IH]; intros acc Ha; [assumption|].
  cbn [fold_left]. apply IH. unfold step.
  destruct (key r); [now apply add_group_ascending | assumption].
Qed.

Lemma groupby_sum_total (k : K) (rows : list R) :
  total_for eqb k (Pd.groupby_sum eqb ltb key val rows)
  = rows_total eqb key val k rows.
Proof.
  unfold Pd.groupby_sum. fold step. now rewrite fold_total.
Qed.

Lemma groupby_sum_keys (k : K) (rows : list R) :
  In k (map fst (Pd.groupby_sum eqb ltb key val rows))
  <-> exists r, In r rows /\ key r = Some k.
Proof.
  unfold Pd.groupby_sum. fold step. rewrite fold_keys. cbn. tauto.
Qed.

Lemma groupby_sum_ascending (rows : list R) :
  ascending ltb (Pd.groupby_sum eqb ltb key val rows).
Proof.
  unfold Pd.groupby_sum. fold step. apply fold_ascending. constructor.
Qed.

(** A group holds the sum over its rows, and has at least one row. *)
Lemma groupby_sum_In (k : K) (n : nat) (rows : list R) :
  In (k, n) (Pd.groupby_sum eqb ltb key val rows) ->
  n = rows_total eqb key val k rows
  /\ exists r, In r rows /\ key r = Some k.
Proof.
  intros Hin. split.
  - rewrite <- groupby_sum_total. symmetry.
    apply total_for_In; [|assumption].
    apply ascending_NoDup, groupby_sum_ascending.
  - apply groupby_sum_keys. change k with (fst (k, n)). now apply in_map.
Qed.

Lemma groupby_sum_complete (k : K) (r : R) (rows : list R) :
  In r rows -> key r = Some k ->
  In (k, rows_total eqb key val k rows) (Pd.groupby_sum eqb ltb key val rows).
Proof.
  intros Hr Hk.
  assert (Hin : In k (map fst (Pd.groupby_sum eqb ltb key val rows)))
    by (apply groupby_sum_keys; eauto).
  apply in_map_iff in Hin. destruct Hin as [[k0 n] [E Hin]].
  cbn in E. subst k0.
  destruct (groupby_sum_In _ _ _ Hin) as [-> _]. assumption.
Qed.
End Fold.

End GroupbyFacts.

(** ** [sort_values] and [drop_duplicates] *)

Section SortFacts.
Context {R : Type} (key1 key2 : R -> string) (cnt : R -> nat).

Let le := by_key_then_count_desc key1 cnt.

Lemma top_order_trans (x y z : R) :
  top_order key1 key2 cnt x y -> top_order key1 key2 cnt y z ->
  top_order key1 key2 cnt x z.
Proof.
  unfold top_order.
  intros [H1|[E1 H1]] [H2|[E2 H2]].
  - left. eapply ltb_trans; eassumption.
  - left. now rewrite <- E2.
  - left. now rewrite E1.
  - right. split; [congruence|].
    destruct H1 as [H1|[C1 H1]], H2 as [H2|[C2 H2]]; try (left; lia).
    right. split; [lia|]. eapply ltb_trans; eassumption.
Qed.

Lemma insert_sorted_In (x y : R) (l : list R) :
  In y (Pd.insert_sorted le x l) <-> y = x \/ In y l.
Proof.
  induction l as [|z t IH]; cbn [Pd.insert_sorted].
  - cbn. intuition.
  - destruct (le x z); cbn [In] in *; [intuition|]. rewrite IH. intuition.
Qed.

Lemma sort_values_In (y : R) (l : list R) :
  In y (Pd.sort_values le l) <-> In y l.
Proof.
  unfold Pd.sort_values.
  induction l as [|x t IH]; cbn [fold_right]; [tauto|].
  rewrite insert_sorted_In, IH. cbn. intuition.
Qed.

(** Inserting a row that precedes, in group order, every row of a frame
    sorted by [top_order] keeps the frame sorted by [top_order]. *)
Lemma insert_sorted_top (x : R) (l : list R) :
  StronglySorted (top_order key1 key2 cnt) l ->
  Forall (group_order key1 key2 x) l ->
  StronglySorted (top_order key1 key2 cnt) (Pd.insert_sorted le x l).
Proof.
  induction l as [|y t IH]; intros Hs Hg; cbn [Pd.insert_sorted].
  - repeat constructor.
  - apply StronglySorted_inv in Hs. destruct Hs as [Ht Hall].
    apply Forall_cons_iff in Hg. destruct Hg as [Hxy Hg].
    unfold group_order, pair_ltb in Hxy. cbn [fst snd] in Hxy.
    apply orb_true_iff in Hxy.
    destruct (le x y) eqn:Hle; unfold le, by_key_then_count_desc in Hle.
    + assert (Hx : top_order key1 key2 cnt x y).
      { unfold top_order. apply orb_true_iff in Hle.
        destruct Hle as [Hle|Hle]; [now left|].
        apply andb_true_iff in Hle. destruct Hle as [E C].
        apply String.eqb_eq in E. apply Nat.leb_le in C.
        right. split; [assumption|].
        destruct (Nat.eq_dec (cnt x) (cnt y)) as [Ec|Ec]; [|left; lia].
        right. split; [assumption|].
        destruct Hxy as [Hxy|Hxy].
        - rewrite E, ltb_irrefl in Hxy. discriminate.
        - apply andb_true_iff in Hxy. tauto. }
      constructor; [constructor; assumption|].
      constructor; [assumption|].
      rewrite Forall_forall in *. intros z Hz.
      eapply top_order_trans; [exact Hx | now apply Hall].
    + constructor; [now apply IH|].
      rewrite Forall_forall in *. intros z Hz.
      apply insert_sorted_In in Hz. destruct Hz as [->|Hz]; [|now apply Hall].
      apply orb_false_iff in Hle. destruct Hle as [L1 L2].
      destruct Hxy as [Hxy|Hxy]; [congruence|].
      apply andb_true_iff in Hxy. destruct Hxy as [E K2].
      rewrite E in L2. cbn in L2. apply Nat.leb_gt in L2.
      apply String.eqb_eq in E.
      right. split; [congruence|]. left. assumption.
Qed.

(** The stable sort of the groups, which arrive in group order, lists
    them in [top_order]. *)
Lemma sort_values_top (l : list R) :
  StronglySorted (group_order key1 key2) l ->
  StronglySorted (top_order key1 key2 cnt) (Pd.sort_values le l).
Proof.
  unfold Pd.sort_values.
  induction l as [|x t IH]; intros Hs; cbn [fold_right]; [constructor|].
  apply StronglySorted_inv in Hs. destruct Hs as [Ht Hall].
  apply insert_sorted_top; [now apply IH|].
  rewrite Forall_forall in *. intros y Hy. apply Hall.
  now apply sort_values_In.
Qed.
End SortFacts.

Section DropFacts.
Context {R : Type} (key : R -> string).

Lemma existsb_eqb_In (k : string) (seen : list string) :
  existsb (String.eqb k) seen = true <-> In k seen.
Proof.
  rewrite existsb_exists. split.
  - intros [x [Hx E]]. apply String.eqb_eq in E. now subst.
  - intros H. exists k. split; [assumption | apply String.eqb_refl].
Qed.

Lemma drop_duplicates_first (seen : list string) (l : list R) (x : R) :
  In x (Pd.drop_duplicates_from String.eqb key seen l) ->
  ~ In (key x) seen
  /\ exists l1 l2, l = l1 ++ x :: l2 /\ forall y, In y l1 -> key y <> key x.
Proof.
  revert seen.
  induction l as [|r t IH]; intros seen Hin; cbn in Hin; [contradiction|].
  destruct (existsb (String.eqb (key r)) seen) eqn:E.
  - destruct (IH _ Hin) as [Hs [l1 [l2 [-> Hl1]]]].
    split; [assumption|]. exists (r :: l1), l2. split; [reflexivity|].
    intros y [<-|Hy]; [|now apply Hl1].
    apply existsb_eqb_In in E. congruence.
  - assert (Hr : ~ In (key r) seen).
    { intros H. apply existsb_eqb_In in H. congruence. }
    destruct Hin as [<-|Hin].
    + split; [assumption|]. exists [], t. split; [reflexivity|].
      intros y [].
    + destruct (IH _ Hin) as [Hs [l1 [l2 [-> Hl1]]]].
      split; [cbn in Hs; tauto|].
      exists (r :: l1), l2. split; [reflexivity|].
      intros y [<-|Hy]; [|now apply Hl1].
      cbn in Hs. intros Ek. apply Hs. left. assumption.
Qed.

Lemma drop_duplicates_NoDup (seen : list string) (l : list R) :
  NoDup (map key (Pd.drop_duplicates_from String.eqb key seen l)).
Proof.
  revert seen. induction l as [|r t IH]; intros seen; cbn; [constructor|].
  destruct (existsb (String.eqb (key r)) seen); [apply IH|].
  cbn. constructor; [|apply IH].
  intros Hin. apply in_map_iff in Hin. destruct Hin as [x [Ex Hx]].
  apply drop_duplicates_first in Hx. destruct Hx as [Hs _].
  apply Hs. left. now rewrite Ex.
Qed.

Lemma drop_duplicates_complete (seen : list string) (l : list R) (y : R) :
  In y l -> ~ In (key y) seen ->
  exists x, In x (Pd.drop_duplicates_from String.eqb key seen l)
            /\ key x = key y.
Proof.
  revert seen. induction l as [|r t IH]; intros seen Hy Hs; [contradiction|].
  cbn. destruct (existsb (String.eqb (key r)) seen) eqn:E.
  - destruct Hy as [->|Hy].
    + apply existsb_eqb_In in E. contradiction.
    + now apply IH.
  - destruct (string_dec (key r) (key y)) as [Ek|Ek].
    + exists r. split; [now left | assumption].
    + destruct Hy as [->|Hy]; [congruence|].
      destruct (IH (key r :: seen) Hy) as [x [Hx Ex]].
      * cbn. intros [H|H]; [congruence | contradiction].
      * exists x. split; [now right | assumption].
Qed.

Lemma StronglySorted_after (ord : R -> R -> Prop) (l1 l2 : list R) (x : R) :
  StronglySorted ord (l1 ++ x :: l2) -> Forall (ord x) l2.
Proof.
  induction l1 as [|a t IH]; cbn; intros Hs;
    apply StronglySorted_inv in Hs; destruct Hs as [Hs Hall]; auto.
Qed.
End DropFacts.

(** The rows a resolver keeps: for each outer key, the row that no other
    row of that key precedes in [top_order]. *)
Lemma top_per_key {R : Type} (key1 key2 : R -> string) (cnt : R -> nat)
    (l : list R) (x : R) :
  StronglySorted (group_order key1 key2) l ->
  In x (Pd.drop_duplicates String.eqb key1
          (Pd.sort_values (by_key_then_count_desc key1 cnt) l)) ->
  In x l
  /\ forall y, In y l -> key1 y = key1 x ->
               y = x
               \/ cnt y < cnt x
               \/ (cnt x = cnt y /\ String.ltb (key2 x) (key2 y) = true).
Proof.
  intros Hs Hx. unfold Pd.drop_duplicates in Hx.
  apply drop_duplicates_first in Hx.
  destruct Hx as [_ [l1 [l2 [El Hl1]]]].
  pose proof (sort_values_top key1 key2 cnt l Hs) as Hsorted.
  rewrite El in Hsorted.
  assert (Hin : forall y, In y l <-> In y (l1 ++ x :: l2)).
  { intros y. rewrite <- El. symmetry. apply (sort_values_In key1 key2 cnt). }
  split.
  - apply Hin. apply in_or_app. right. now left.
  - intros y Hy Ek. apply Hin in Hy. apply in_app_or in Hy.
    destruct Hy as [Hy|[Hy|Hy]].
    + exfalso. now apply (Hl1 y).
    + now left.
    + right. apply StronglySorted_after in Hsorted.
      rewrite Forall_forall in Hsorted. specialize (Hsorted y Hy).
      destruct Hsorted as [H|[_ H]]; [|assumption].
      rewrite Ek, ltb_irrefl in H. discriminate.
Qed.

(** ** Merges on a key that is unique on the right *)

Section MergeFacts.
Context {L R : Type} (kr : R -> string).

Lemma filter_unique (k : string) (right : list R) :
  NoDup (map kr right) ->
  filter (fun r => String.eqb k (kr r)) right
  = match find (fun r => String.eqb k (kr r)) right with
    | Some r => [r]
    | None => []
    end.
Proof.
  induction right as [|r t IH]; intros Hnd; [reflexivity|].
  cbn in Hnd. apply NoDup_cons_iff in Hnd. destruct Hnd as [Hr Hnd].
  cbn [filter find]. destruct (String.eqb k (kr r)) eqn:E.
  - f_equal. apply String.eqb_eq in E. subst k.
    rewrite IH by assumption.
    destruct (find _ t) as [r'|] eqn:Ef; [|reflexivity].
    apply find_some in Ef. destruct Ef as [Hin E']. exfalso. apply Hr.
    apply String.eqb_eq in E'. rewrite E'. now apply in_map.
  - now apply IH.
Qed.

Lemma merge_left_unique (kl : L -> option string) (left : list L)
    (right : list R) :
  NoDup (map kr right) ->
  Pd.merge_left String.eqb kl kr left right
  = map (fun l => (l, match kl l with
                      | Some k => find (fun r => String.eqb k (kr r)) right
                      | None => None
                      end)) left.
Proof.
  intros Hnd. unfold Pd.merge_left.
  induction left as [|l t IH]; [reflexivity|].
  cbn [map]. rewrite <- IH. cbn [flat_map].
  destruct (kl l) as [k|]; [|reflexivity].
  rewrite filter_unique by assumption.
  destruct (find _ right); reflexivity.
Qed.

Lemma merge_inner_unique (kl : L -> string) (left : list L) (right : list R) :
  NoDup (map kr right) ->
  Pd.merge_inner String.eqb kl kr left right
  = flat_map (fun l => match find (fun r => String.eqb (kl l) (kr r)) right with
                       | Some r => [(l, r)]
                       | None => []
                       end) left.
Proof.
  intros Hnd. unfold Pd.merge_inner.
  induction left as [|l t IH]; [reflexivity|].
  cbn [flat_map]. rewrite <- IH. f_equal.
  rewrite filter_unique by assumption.
  destruct (find _ right); reflexivity.
Qed.
End MergeFacts.

(** ** The frame [stats] of the dominant-company resolver *)

Lemma flat_map_singleton_In {A B : Type} (f : A -> list B) (g : A -> B)
    (l : list A) :
  (forall a, In a l -> f a = [g a]) -> flat_map f l = map g l.
Proof.
  induction l as [|a t IH]; intros H; [reflexivity|].
  cbn. rewrite (H a) by now left. cbn. f_equal. apply IH.
  intros b Hb. apply H. now right.
Qed.

Lemma find_unique_key {V : Type} (k : string) (v : V)
    (l : list (string * V)) :
  NoDup (map fst l) -> In (k, v) l ->
  find (fun r => String.eqb k (fst r)) l = Some (k, v).
Proof.
  induction l as [|[k1 v1] t IH]; intros Hnd Hin; [contradiction|].
  cbn in Hnd. apply NoDup_cons_iff in Hnd. destruct Hnd as [Hk Hnd].
  cbn [find fst]. destruct Hin as [E|Hin].
  - inversion E; subst. now rewrite String.eqb_refl.
  - destruct (String.eqb k k1) eqn:E; [|now apply IH].
    apply String.eqb_eq in E. subst k1. exfalso. apply Hk.
    change k with (fst (k, v)). now apply in_map.
Qed.

Lemma StronglySorted_weaken {A : Type} (ord1 ord2 : A -> A -> Prop)
    (l : list A) :
  (forall a b, ord1 a b -> ord2 a b) ->
  StronglySorted ord1 l -> StronglySorted ord2 l.
Proof.
  intros Himp. induction 1 as [|a t Ht IH Hall]; constructor; [assumption|].
  eapply Forall_impl; [|exact Hall]. intros b. apply Himp.
Qed.

Lemma StronglySorted_map {A B : Type} (ord : B -> B -> Prop) (f : A -> B)
    (l : list A) :
  StronglySorted (fun a b => ord (f a) (f b)) l -> StronglySorted ord (map f l).
Proof.
  induction 1 as [|a t Ht IH Hall]; cbn; constructor; [assumption|].
  rewrite Forall_forall in *. intros b Hb.
  apply in_map_iff in Hb. destruct Hb as [x [<- Hx]]. now apply Hall.
Qed.

Lemma domain_stats_eq (df : list derived) :
  domain_stats df = map (stat_of df) (domain_groups df).
Proof.
  unfold domain_stats. fold (domain_groups df).
  set (totals := Pd.groupby_sum String.eqb String.ltb _ snd (domain_groups df)).
  assert (Hnd : NoDup (map fst totals))
    by apply ascending_NoDup, groupby_sum_ascending.
  rewrite merge_inner_unique by assumption.
  rewrite (flat_map_singleton_In _
             (fun g => (g, (fst (fst g), domain_total df (fst (fst g)))))).
  - rewrite map_map. reflexivity.
  - intros g Hg.
    rewrite (find_unique_key _ (domain_total df (fst (fst g))));
      [reflexivity | assumption |].
    eapply groupby_sum_complete; [exact Hg | reflexivity].
Qed.

Lemma domain_groups_sorted (df : list derived) :
  ascending pair_ltb (domain_groups df).
Proof. apply groupby_sum_ascending. Qed.

Lemma domain_stats_sorted (df : list derived) :
  StronglySorted (group_order st_domain st_company) (domain_stats df).
Proof.
  rewrite domain_stats_eq. apply StronglySorted_map.
  pose proof (domain_groups_sorted df) as H. unfold ascending in H.
  eapply StronglySorted_weaken; [|exact H].
  intros [[d1 c1] n1] [[d2 c2] n2]. trivial.
Qed.

Lemma list_sum_ones {A : Type} (l : list A) :
  list_sum (map (fun _ => 1) l) = List.length l.
Proof.
  unfold list_sum. induction l as [|a t IH]; cbn; [reflexivity | now rewrite IH].
Qed.

Lemma filter_length_pos {A : Type} (f : A -> bool) (l : list A) :
  1 <= List.length (filter f l) -> exists a, In a l /\ f a = true.
Proof.
  destruct (filter f l) as [|a t] eqn:E; cbn; [lia|]. intros _.
  assert (Ha : In a (filter f l)) by (rewrite E; now left).
  apply filter_In in Ha. eauto.
Qed.

Lemma filter_length_In {A : Type} (f : A -> bool) (l : list A) (a : A) :
  In a l -> f a = true -> 1 <= List.length (filter f l).
Proof.
  intros Ha Hf.
  assert (H : In a (filter f l)) by (apply filter_In; auto).
  destruct (filter f l); [contradiction | cbn; lia].
Qed.

Lemma in_group_key (d c : string) (r : derived) :
  in_group d c r = true <-> domain_company_key r = Some (d, c).
Proof.
  unfold in_group, domain_company_key.
  destruct (domain r) as [d'|]; [|split; discriminate].
  destruct (Company_Name (base r)) as [c'|]; [|split; discriminate].
  rewrite andb_true_iff, !String.eqb_eq. split.
  - intros [-> ->]. reflexivity.
  - intros E. inversion E. auto.
Qed.

Lemma occurrences_rows_total (df : list derived) (d c : string) :
  rows_total pair_eqb domain_company_key (fun _ => 1) (d, c) df
  = occurrences_in_domain df d c.
Proof.
  unfold rows_total, occurrences_in_domain. rewrite list_sum_ones.
  f_equal. apply filter_ext. intros r.
  unfold domain_company_key.
  destruct (domain r) as [d'|]; [|reflexivity].
  destruct (Company_Name (base r)) as [c'|]; [|reflexivity].
  unfold pair_eqb. cbn [fst snd].
  now rewrite (String.eqb_sym d d'), (String.eqb_sym c c').
Qed.

(** A group of [stats] counts the rows of its domain and raw company name,
    and there is at least one. *)
Lemma domain_groups_In (df : list derived) (d c : string) (n : nat) :
  In ((d, c), n) (domain_groups df)
  <-> n = occurrences_in_domain df d c /\ 1 <= n.
Proof.
  unfold domain_groups, Pd.groupby_size. split.
  - intros Hin. apply groupby_sum_In in Hin.
    destruct Hin as [-> [r [Hr Hk]]].
    rewrite occurrences_rows_total. split; [reflexivity|].
    unfold occurrences_in_domain.
    apply (filter_length_In _ _ r Hr). fold (in_group d c r).
    now apply in_group_key.
  - intros [-> Hpos]. unfold occurrences_in_domain in Hpos.
    apply filter_length_pos in Hpos. destruct Hpos as [r [Hr Hg]].
    fold (in_group d c r) in Hg. apply in_group_key in Hg.
    rewrite <- occurrences_rows_total.
    eapply groupby_sum_complete; eassumption.
Qed.

Lemma domain_stats_In (df : list derived) (s : DomainStat) :
  In s (domain_stats df)
  <-> s = stat_of df ((st_domain s, st_company s), st_count s)
      /\ st_count s = occurrences_in_domain df (st_domain s) (st_company s)
      /\ 1 <= st_count s.
Proof.
  rewrite domain_stats_eq, in_map_iff. split.
  - intros [[[d c] n] [<- Hg]]. cbn [stat_of st_domain st_company st_count fst snd].
    split; [reflexivity|]. now apply domain_groups_In.
  - intros [E [Hc Hp]]. exists ((st_domain s, st_company s), st_count s).
    split; [now symmetry|]. apply domain_groups_In. auto.
Qed.

(** The assignment of a domain comes from the group of that domain that
    has the largest count and, among those, the least company name. *)
Lemma dominant_is_top (df : list derived) (a : DominantAssignment) :
  In a (find_dominant_company_per_domain df) ->
  exists s,
    In s (domain_stats df) /\ a = assignment_of s
    /\ forall s', In s' (domain_stats df) -> st_domain s' = st_domain s ->
                  s' = s
                  \/ st_count s' < st_count s
                  \/ (st_count s = st_count s'
                      /\ String.ltb (st_company s) (st_company s') = true).
Proof.
  unfold find_dominant_company_per_domain. intros Hin.
  apply in_map_iff in Hin. destruct Hin as [s [<- Hs]].
  apply (top_per_key st_domain st_company st_count) in Hs;
    [|apply domain_stats_sorted].
  destruct Hs as [Hs Htop]. exists s. auto.
Qed.

Lemma dominant_NoDup (df : list derived) :
  NoDup (map da_domain (find_dominant_company_per_domain df)).
Proof.
  unfold find_dominant_company_per_domain. rewrite map_map. cbn [da_domain].
  apply drop_duplicates_NoDup.
Qed.

(** ** Shares *)

Lemma filter_map_comm {A B : Type} (f : B -> bool) (g : A -> B) (l : list A) :
  filter f (map g l) = map g (filter (fun a => f (g a)) l).
Proof.
  induction l as [|a t IH]; [reflexivity|]. cbn.
  destruct (f (g a)); cbn; now rewrite IH.
Qed.

Lemma domain_total_sum (df : list derived) (d : string) :
  domain_total df d
  = list_sum (map st_count
                (filter (fun s => String.eqb (st_domain s) d) (domain_stats df))).
Proof.
  rewrite domain_stats_eq, filter_map_comm, map_map.
  unfold domain_total, rows_total. cbn [stat_of st_domain st_count].
  f_equal. f_equal. apply filter_ext. intros g. apply String.eqb_sym.
Qed.

Lemma domain_stats_total (df : list derived) (s : DomainStat) :
  In s (domain_stats df) ->
  st_total s = domain_total df (st_domain s)
  /\ 1 <= st_count s <= st_total s.
Proof.
  intros Hs. pose proof Hs as Hs'.
  apply domain_stats_In in Hs'. destruct Hs' as [E [_ Hpos]].
  assert (Ht : st_total s = domain_total df (st_domain s))
    by (rewrite E at 1; reflexivity).
  split; [assumption|]. split; [assumption|].
  rewrite Ht, domain_total_sum.
  assert (Hf : In s (filter (fun s' => String.eqb (st_domain s') (st_domain s))
                       (domain_stats df)))
    by (apply filter_In; split; [assumption | apply String.eqb_refl]).
  revert Hf. generalize (filter (fun s' => String.eqb (st_domain s') (st_domain s))
                           (domain_stats df)).
  intros l. unfold list_sum.
  induction l as [|x t IH]; intros Hin; [contradiction|].
  cbn [map fold_right]. destruct Hin as [->|Hin]; [lia|].
  specialize (IH Hin). lia.
Qed.

Lemma Pos_of_nat_Z (t : nat) : 1 <= t -> Z.pos (Pos.of_nat t) = Z.of_nat t.
Proof.
  intros Ht. rewrite <- positive_nat_Z, Nat2Pos.id by lia. reflexivity.
Qed.

Lemma Qsum_same_den (p : positive) (cs : list nat) :
  (Qsum (map (fun c => Z.of_nat c # p) cs) == Z.of_nat (list_sum cs) # p)%Q.
Proof.
  unfold Qsum, list_sum.
  induction cs as [|c t IH]; cbn [map fold_right].
  - unfold Qeq. cbn. reflexivity.
  - rewrite IH. unfold Qeq, Qplus. cbn [Qnum Qden].
    rewrite Nat2Z.inj_add, Pos2Z.inj_mul. ring.
Qed.

Lemma share_bounds (df : list derived) (s : DomainStat) :
  In s (domain_stats df) -> (0 < share s /\ share s <= 1)%Q.
Proof.
  intros Hs. apply domain_stats_total in Hs. destruct Hs as [_ [H1 H2]].
  unfold share, Qlt, Qle. cbn [Qnum Qden].
  rewrite Pos_of_nat_Z by lia. lia.
Qed.

Lemma shares_sum_to_one (df : list derived) (s : DomainStat) :
  In s (domain_stats df) ->
  (Qsum (map share
           (filter (fun s' => String.eqb (st_domain s') (st_domain s))
              (domain_stats df))) == 1)%Q.
Proof.
  intros Hs.
  pose proof (domain_stats_total df s Hs) as [Ht [H1 H2]].
  set (d := st_domain s) in *.
  set (l := filter (fun s' => String.eqb (st_domain s') d) (domain_stats df)).
  assert (Hmap : map share l
                 = map (fun c => Z.of_nat c # Pos.of_nat (domain_total df d))%Q
                     (map st_count l)).
  { rewrite map_map. apply map_ext_in. intros s' Hs'.
    apply filter_In in Hs'. destruct Hs' as [Hs' Ed].
    apply String.eqb_eq in Ed.
    unfold share. destruct (domain_stats_total df s' Hs') as [-> _].
    now rewrite Ed. }
  rewrite Hmap, Qsum_same_den.
  fold l in Ht. unfold l. rewrite <- domain_total_sum.
  unfold Qeq. cbn [Qnum Qden]. rewrite Pos_of_nat_Z by lia. lia.
Qed.

(** C6. For every domain that has a dominant assignment, the dominant
    share is greater than 0 and at most 1, and the shares of all the
    company groups of that domain add up to 1 (shares as exact
    rationals). *)
Theorem dominant_share_bounds (df : list derived) (a : DominantAssignment) :
  In a (find_dominant_company_per_domain df) ->
  (0 < dominant_share a)%Q
  /\ (dominant_share a <= 1)%Q
  /\ (Qsum (map share
              (filter (fun s => String.eqb (st_domain s) (da_domain a))
                 (domain_stats df))) == 1)%Q.
Proof.
  intros Ha. apply dominant_is_top in Ha.
  destruct Ha as [s [Hs [-> _]]].
  cbn [assignment_of dominant_share da_domain].
  destruct (share_bounds df s Hs) as [H0 H1].
  split; [assumption|]. split; [assumption|].
  now apply shares_sum_to_one.
Qed.

(** ** The frame [name_stats] of the canonical-name resolver *)

Section Canonical.
Context {R : Type} (CN : R -> cell).

Let temp (df : list R) : list string :=
  map (fun r => Py.strip (astype_str (CN r))) df.

Lemma name_stats_sorted (df : list R) :
  StronglySorted
    (group_order (fun g : (string * string) * nat => fst (fst g))
                 (fun g => snd (fst g)))
    (name_stats CN df).
Proof.
  pose proof (groupby_sum_ascending (eqb := pair_eqb) (ltb := pair_ltb)
                (fun s => Some (Py.lower s, s)) (fun _ => 1) (temp df)) as H.
  unfold ascending in H.
  eapply StronglySorted_weaken; [|exact H].
  intros [[n1 c1] k1] [[n2 c2] k2]. trivial.
Qed.

Lemma spelling_rows_total (df : list R) (c : string) :
  rows_total pair_eqb (fun s => Some (Py.lower s, s)) (fun _ => 1)
    (Py.lower c, c) (temp df)
  = spelling_occurrences CN df c.
Proof.
  unfold rows_total, spelling_occurrences, temp.
  rewrite list_sum_ones, filter_map_comm, length_map.
  f_equal. apply filter_ext. intros r.
  unfold pair_eqb. cbn [fst snd].
  set (s := Py.strip (astype_str (CN r))).
  rewrite (String.eqb_sym s c).
  destruct (String.eqb c s) eqn:E; [|apply andb_false_r].
  apply String.eqb_eq in E. subst s. rewrite <- E.
  now rewrite String.eqb_refl.
Qed.

(** A group of [name_stats] pairs a trimmed spelling with its lowercase
    form and counts the rows that have that spelling. *)
Lemma name_stats_In (df : list R) (n c : string) (k : nat) :
  In ((n, c), k) (name_stats CN df)
  <-> n = Py.lower c /\ k = spelling_occurrences CN df c /\ 1 <= k.
Proof.
  unfold name_stats, Pd.groupby_size. fold (temp df). split.
  - intros Hin. apply groupby_sum_In in Hin.
    destruct Hin as [-> [s [Hs Hk]]]. inversion Hk; subst.
    split; [reflexivity|]. rewrite spelling_rows_total.
    split; [reflexivity|].
    unfold temp in Hs. apply in_map_iff in Hs. destruct Hs as [r [Er Hr]].
    unfold spelling_occurrences.
    apply (filter_length_In _ _ r Hr). rewrite Er. apply String.eqb_refl.
  - intros [-> [-> Hpos]]. unfold spelling_occurrences in Hpos.
    apply filter_length_pos in Hpos. destruct Hpos as [r [Hr Hc]].
    apply String.eqb_eq in Hc.
    rewrite <- spelling_rows_total.
    eapply (groupby_sum_complete (eqb := pair_eqb) (ltb := pair_ltb)
              (fun s => Some (Py.lower s, s)) (fun _ => 1) _ c).
    + unfold temp. apply in_map_iff. exists r. split; [exact Hc | assumption].
    + reflexivity.
Qed.

(** The canonical spelling of a normalized name is the spelling of that
    name with the largest count and, among those, the least one. *)
Lemma canonical_is_top (df : list R) (a : CanonicalAssignment) :
  In a (find_canonical_company_by_name CN df) ->
  let c := canonical_company a in
  ca_company_norm a = Py.lower c
  /\ 1 <= spelling_occurrences CN df c
  /\ forall c', Py.lower c' = Py.lower c ->
                spelling_occurrences CN df c' <= spelling_occurrences CN df c
                /\ (spelling_occurrences CN df c' = spelling_occurrences CN df c ->
                    c' <> c -> String.ltb c c' = true).
Proof.
  unfold find_canonical_company_by_name. intros Hin.
  apply in_map_iff in Hin. destruct Hin as [[[n c] k] [<- Hg]].
  cbn [canonical_company ca_company_norm fst snd].
  apply (top_per_key (fun g : (string * string) * nat => fst (fst g))
           (fun g => snd (fst g)) snd) in Hg; [|apply name_stats_sorted].
  destruct Hg as [Hg Htop].
  apply name_stats_In in Hg. destruct Hg as [-> [-> Hpos]].
  split; [reflexivity|]. split; [assumption|].
  intros c' Hn.
  destruct (Nat.eq_dec (spelling_occurrences CN df c') 0) as [Hz|Hz].
  { split; lia. }
  assert (Hg' : In ((Py.lower c', c'), spelling_occurrences CN df c')
                  (name_stats CN df)).
  { apply name_stats_In. repeat split; lia. }
  specialize (Htop _ Hg' Hn). cbn [fst snd] in Htop.
  destruct Htop as [E|[Hlt|[Heq Hlt]]].
  - inversion E; subst. split; [lia|]. congruence.
  - split; lia.
  - split; [lia|]. auto.
Qed.

Lemma canonical_NoDup (df : list R) :
  NoDup (map ca_company_norm (find_canonical_company_by_name CN df)).
Proof.
  unfold find_canonical_company_by_name. rewrite map_map.
  cbn [ca_company_norm]. apply drop_duplicates_NoDup.
Qed.
End Canonical.

Lemma dominant_top_count (df : list derived) (a : DominantAssignment) :
  In a (find_dominant_company_per_domain df) ->
  let d := da_domain a in
  let c := dominant_company a in
  1 <= occurrences_in_domain df d c
  /\ forall c',
       occurrences_in_domain df d c' <= occurrences_in_domain df d c
       /\ (occurrences_in_domain df d c' = occurrences_in_domain df d c ->
           c' <> c -> String.ltb c c' = true).
Proof.
  intros Ha. apply dominant_is_top in Ha.
  destruct Ha as [s [Hs [-> Htop]]].
  cbn [assignment_of da_domain dominant_company].
  pose proof Hs as Hs'. apply domain_stats_In in Hs'.
  destruct Hs' as [_ [Hc Hpos]].
  split; [lia|]. intros c'.
  destruct (Nat.eq_dec (occurrences_in_domain df (st_domain s) c') 0) as [Hz|Hz].
  { split; lia. }
  set (s' := stat_of df ((st_domain s, c'),
                         occurrences_in_domain df (st_domain s) c')).
  assert (Hs2 : In s' (domain_stats df)).
  { apply domain_stats_In. unfold s'.
    cbn [stat_of st_domain st_company st_count fst snd].
    repeat split; lia. }
  specialize (Htop s' Hs2 eq_refl).
  unfold s' in Htop. cbn [stat_of st_company st_count fst snd] in Htop.
  destruct Htop as [E|[Hlt|[Heq Hlt]]].
  - assert (Ec : st_company s = c') by (rewrite <- E; reflexivity).
    rewrite Ec. split; [lia | congruence].
  - split; lia.
  - split; [lia|]. auto.
Qed.

(** ** Ties *)

(** C5, as amended. In both resolvers the group chosen for a key has the
    largest count of that key, and when several groups of the key have that
    same count, the one whose company name is least in string order is
    chosen: the groups come out of the grouping in ascending order of name,
    and the stable sort on descending count keeps that order among equal
    counts. *)
Theorem tie_break_least_name :
  (forall (df : list derived) (a : DominantAssignment),
      In a (find_dominant_company_per_domain df) ->
      let d := da_domain a in
      let c := dominant_company a in
      1 <= occurrences_in_domain df d c
      /\ forall c',
           occurrences_in_domain df d c' <= occurrences_in_domain df d c
           /\ (occurrences_in_domain df d c' = occurrences_in_domain df d c ->
               c' <> c -> String.ltb c c' = true))
  /\ (forall (df : list row) (a : CanonicalAssignment),
         In a (find_canonical_company_by_name Company_Name df) ->
         let c := canonical_company a in
         ca_company_norm a = Py.lower c
         /\ 1 <= spelling_occurrences Company_Name df c
         /\ forall c',
              Py.lower c' = Py.lower c ->
              spelling_occurrences Company_Name df c'
              <= spelling_occurrences Company_Name df c
              /\ (spelling_occurrences Company_Name df c'
                  = spelling_occurrences Company_Name df c ->
                  c' <> c -> String.ltb c c' = true)).
Proof.
  split.
  - apply dominant_top_count.
  - intros df a. apply canonical_is_top.
Qed.

Lemma tie_break_least_name_witness :
  (In {| da_domain := "x.com"; dominant_company := "Alpha";
         dominant_share := (1 # 2)%Q |}
      (find_dominant_company_per_domain (map derive_row tie_table))
   /\ 1 <= occurrences_in_domain (map derive_row tie_table) "x.com" "Alpha"
   /\ String.ltb "Alpha" "Zeta" = true)
  /\ (In {| ca_company_norm := "acme"; canonical_company := "ACME" |}
        (find_canonical_company_by_name Company_Name spelling_tie)
      /\ String.ltb "ACME" "acme" = true).
Proof.
  assert (H1 : In {| da_domain := "x.com"; dominant_company := "Alpha";
                     dominant_share := (1 # 2)%Q |}
                 (find_dominant_company_per_domain (map derive_row tie_table)))
    by (vm_compute; auto).
  assert (H2 : In {| ca_company_norm := "acme"; canonical_company := "ACME" |}
                 (find_canonical_company_by_name Company_Name spelling_tie))
    by (vm_compute; auto).
  split.
  - split; [exact H1|].
    destruct (proj1 tie_break_least_name _ _ H1) as [Hpos Htop].
    split; [exact Hpos|].
    apply (proj2 (Htop "Zeta")); [reflexivity | discriminate].
  - split; [exact H2|].
    destruct (proj2 tie_break_least_name _ _ H2) as [_ [_ Htop]].
    apply (proj2 (Htop "acme" eq_refl)); [reflexivity | discriminate].
Defined.

(** C5, as worded, fails: with one record of Zeta followed by one record of
    Alpha on the same domain, the dominant company is Alpha, not the group
    met first; with the spellings acme then ACME, the canonical spelling is
    ACME. *)
Lemma tie_break_not_encounter_order :
  ~ (forall (df : list derived) (a : DominantAssignment),
        In a (find_dominant_company_per_domain df) ->
        first_encountered_top df (da_domain a) = Some (dominant_company a))
  /\ ~ (forall (df : list row) (a : CanonicalAssignment),
           In a (find_canonical_company_by_name Company_Name df) ->
           first_encountered_spelling Company_Name df (ca_company_norm a)
           = Some (canonical_company a)).
Proof.
  split; intros H.
  - specialize (H (map derive_row tie_table)
                  {| da_domain := "x.com"; dominant_company := "Alpha";
                     dominant_share := (1 # 2)%Q |}).
    assert (Hin : In {| da_domain := "x.com"; dominant_company := "Alpha";
                        dominant_share := (1 # 2)%Q |}
                    (find_dominant_company_per_domain (map derive_row tie_table)))
      by (vm_compute; auto).
    specialize (H Hin). vm_compute in H. discriminate.
  - specialize (H spelling_tie
                  {| ca_company_norm := "acme"; canonical_company := "ACME" |}).
    assert (Hin : In {| ca_company_norm := "acme"; canonical_company := "ACME" |}
                    (find_canonical_company_by_name Company_Name spelling_tie))
      by (vm_compute; auto).
    specialize (H Hin). vm_compute in H. discriminate.
Qed.

Lemma dominant_share_bounds_witness :
  In {| da_domain := "acme.com"; dominant_company := "Acme Inc";
        dominant_share := (3 # 4)%Q |}
     (find_dominant_company_per_domain (map derive_row scenario_A))
  /\ (0 < 3 # 4)%Q /\ (3 # 4 <= 1)%Q.
Proof.
  assert (H : In {| da_domain := "acme.com"; dominant_company := "Acme Inc";
                    dominant_share := (3 # 4)%Q |}
                (find_dominant_company_per_domain (map derive_row scenario_A)))
    by (vm_compute; auto).
  split; [exact H|].
  destruct (dominant_share_bounds _ _ H) as [H0 [H1 _]].
  split; [exact H0 | exact H1].
Defined.

(** ** Rows are kept by the merges *)

Lemma merge_assignments_cols (df : list derived) :
  map cols (merge_assignments df) = df.
Proof.
  unfold merge_assignments.
  rewrite (merge_left_unique ca_company_norm) by apply canonical_NoDup.
  rewrite (merge_left_unique da_domain) by apply dominant_NoDup.
  rewrite !map_map. unfold cols. cbn [fst]. apply map_id.
Qed.

Lemma derive_row_base (df : list row) : map base (map derive_row df) = df.
Proof. rewrite map_map. cbn [derive_row derive base]. apply map_id. Qed.

Lemma mark_suspects_strip (df : list row) (P : list string) (out : list marked) :
  mark_suspects df P = Ok out -> map strip_columns out = df.
Proof.
  rewrite mark_suspects_ok. intros E. inversion E; subst; clear E.
  rewrite map_map. unfold strip_columns, mark_row. cbn [columns_of].
  rewrite <- (map_map cols base), merge_assignments_cols.
  apply derive_row_base.
Qed.

(** C7. Classification is idempotent: every table is classified; removing
    the added columns from the result gives back the input table, row for
    row; and classifying that table again, with the same allow-list, gives
    the same result, hence the same is_suspect, reasons and
    suggested_company on every row. *)
Theorem classification_idempotent (df : list row) (P : list string) :
  exists out,
    mark_suspects df P = Ok out
    /\ map strip_columns out = df
    /\ mark_suspects (map strip_columns out) P = Ok out.
Proof.
  eexists. split; [apply mark_suspects_ok|].
  assert (Hs : map strip_columns
                 (map (mark_row P (Pd.value_counts_get String.eqb
                                     (map company_clean (map derive_row df))))
                    (merge_assignments (map derive_row df))) = df)
    by (eapply mark_suspects_strip; apply mark_suspects_ok).
  split; [exact Hs|]. rewrite Hs. apply mark_suspects_ok.
Qed.

(** ** Untrimmed and missing company names *)

(** C2, evaluated on a table whose two records, on one domain, both name
    the company with a trailing blank. The resolver groups on the raw
    Company Name cell, so the dominant company keeps the blank: it is not a
    trimmed value, it differs from company_clean of the very rows that
    make it dominant, and both rows are flagged by the domain-dominance
    heuristic and suggested the untrimmed name. *)
Theorem dominant_company_untrimmed :
  exists out,
    mark_suspects padded_table [] = Ok out
    /\ map (fun m => company_clean (cols (columns_of m))) out
       = ["Acme Inc"; "Acme Inc"]
    /\ map (fun m => get_dominant_company (columns_of m)) out
       = [Some "Acme Inc "; Some "Acme Inc "]
    /\ Py.strip "Acme Inc " <> "Acme Inc "
    /\ map flagged_by_dominance out = [true; true]
    /\ map suggested_company out = [Some "Acme Inc "; Some "Acme Inc "].
Proof.
  eexists. split; [vm_compute; reflexivity|].
  repeat split. vm_compute. discriminate.
Qed.

(** C10, evaluated on a table with two records without company name and
    one record of Acme, all on one domain. The two records get company_clean
    and company_norm nan, count twice in the frequency table and in the
    canonical-name resolver, but the dominant-company resolver groups on the
    raw cell and leaves them out: the only group of the domain is Acme, with
    count 1 of a total of 1, and the two records are flagged against it. *)
Theorem missing_name_not_in_dominant_pass :
  exists out,
    mark_suspects missing_names [] = Ok out
    /\ map (fun m => company_clean (cols (columns_of m))) out
       = ["nan"; "nan"; "Acme"]
    /\ map (fun m => company_norm (cols (columns_of m))) out
       = ["nan"; "nan"; "acme"]
    /\ Pd.value_counts_get String.eqb
         (map company_clean (map derive_row missing_names)) "nan" = 2
    /\ name_stats Company_Name missing_names
       = [(("acme", "Acme"), 1); (("nan", "nan"), 2)]
    /\ map (fun s => (st_domain s, st_company s, st_count s, st_total s))
         (domain_stats (map derive_row missing_names))
       = [("x.com", "Acme", 1, 1)]
    /\ map (fun m => get_dominant_company (columns_of m)) out
       = [Some "Acme"; Some "Acme"; Some "Acme"]
    /\ map (fun m => get_dominant_share (columns_of m)) out
       = [Some 1%Q; Some 1%Q; Some 1%Q]
    /\ map flagged_by_dominance out = [true; true; false]
    /\ map suggested_company out = [Some "Acme"; Some "Acme"; None].
Proof.
  eexists. split; [vm_compute; reflexivity|].
  repeat split.
Qed.

(** ** [main] *)

Lemma load_prospect_companies_trace (w : world) (p : option string)
    (tr : list event) :
  exists prints,
    fst (load_prospect_companies w p tr) = tr ++ prints
    /\ forallb is_print prints = true.
Proof.
  unfold load_prospect_companies.
  destruct p as [p|]; [|exists []; cbn; now rewrite app_nil_r].
  destruct (String.eqb p ""); [exists []; cbn; now rewrite app_nil_r|].
  destruct (negb (exists_ w p)).
  - exists [Stdout (Msg_aviso_nao_encontrado p)]. cbn. auto.
  - destruct (String.eqb _ ".txt"); [exists []; cbn; now rewrite app_nil_r|].
    destruct (filter _ (columns (read_csv w p))) as [|col cs];
      [exists []; cbn; now rewrite app_nil_r|].
    exists []. unfold bind, lift, ret. rewrite app_nil_r.
    destruct (getitem _ col); cbn; auto.
Qed.

Lemma rows_of_length (df : frame) (rows : list row) :
  rows_of df = Ok rows -> List.length rows = List.length (data df).
Proof.
  unfold rows_of, getitem.
  destruct (index_of "Email" (columns df)); [|discriminate].
  destruct (index_of "Company Name" (columns df)); [|discriminate].
  cbn [rbind]. intros E. inversion E; subst.
  now rewrite length_map, length_combine, !length_map, Nat.min_id.
Qed.

Lemma mem_In (c : string) (l : list string) : Py.mem c l = true <-> In c l.
Proof.
  unfold Py.mem. rewrite existsb_exists. split.
  - intros [x [Hx E]]. apply String.eqb_eq in E. now subst.
  - intros H. exists c. split; [assumption | apply String.eqb_refl].
Qed.

Lemma missing_columns (df : frame) :
  ~ In "Email" (columns df) \/ ~ In "Company Name" (columns df) ->
  filter (fun c => negb (Py.mem c (columns df))) required_cols <> [].
Proof.
  intros H. unfold required_cols. cbn [filter].
  destruct (Py.mem "Email" (columns df)) eqn:E1; cbn [negb]; [|discriminate].
  destruct (Py.mem "Company Name" (columns df)) eqn:E2; cbn [negb];
    [|discriminate].
  apply mem_In in E1. apply mem_In in E2. tauto.
Qed.

Lemma with_suffix_pac (base : string) :
  Path.with_suffix base "pac.csv" = Raise (ValueError_invalid_suffix "pac.csv").
Proof. reflexivity. Qed.

Lemma prints_only (tr : list event) (ev : event) :
  forallb is_print tr = true -> In ev tr -> is_print ev = true.
Proof.
  intros H Hin. rewrite forallb_forall in H. now apply H.
Qed.

(** C9. If the input table lacks the Email column or the Company Name
    column the run raises, and its only effect, if any, is the message that
    announces the reading: when the input file exists, the run stops at the
    check of the required columns, before the classifier is called and
    before any file is written.  In any run, a table that is written to the
    treated or to the suspects file comes from the classification of the
    whole input table: it is the classified table, which has one row per
    input line, or its sub-table of suspects. *)
Theorem main_all_or_nothing (w : world) (a : args) :
  let df := read_csv w (input_csv a) in
  let run := main w a [] in
  ((~ In "Email" (columns df) \/ ~ In "Company Name" (columns df)) ->
   (exists e, snd run = Raise e)
   /\ forallb is_print (fst run) = true
   /\ (exists_ w (input_csv a) = true ->
       exists missing,
         run = ([Stdout (Msg_lendo (input_csv a))],
                Raise (ValueError_missing_columns missing))))
  /\ (forall path table,
         In (To_csv path table) (fst run) ->
         exists rows P full,
           rows_of df = Ok rows
           /\ mark_suspects rows P = Ok full
           /\ List.length full = List.length (data df)
           /\ map strip_columns full = rows
           /\ (table = full \/ table = filter is_suspect full)).
Proof.
  cbv zeta. split.
  - intros Hmiss. apply missing_columns in Hmiss.
    unfold main, bind, emit, raise.
    destruct (exists_ w (input_csv a)); cbn [negb app].
    + destruct (filter _ required_cols) as [|c cs] eqn:E; [congruence|].
      cbn. split; [eauto|]. split; [reflexivity|]. intros _. eauto.
    + cbn. split; [eauto|]. split; [reflexivity|]. discriminate.
  - intros path table.
    unfold main, bind, emit, raise, lift, ret.
    destruct (negb (exists_ w (input_csv a))); [cbn; contradiction|].
    cbn [app].
    destruct (filter _ required_cols) as [|c cs];
      [|cbn; intros [H|[]]; discriminate].
    destruct (load_prospect_companies_trace w (empresas_prospectadas a)
                [Stdout (Msg_lendo (input_csv a))]) as [prints [Htr Hp]].
    destruct (load_prospect_companies w (empresas_prospectadas a) _)
      as [tr1 [P|e]]; cbn [fst] in Htr; subst tr1.
    2:{ cbn [fst]. intros Hin.
        assert (Hall : forallb is_print
                         ([Stdout (Msg_lendo (input_csv a))] ++ prints) = true)
          by (cbn; exact Hp).
        apply (prints_only _ _ Hall) in Hin. discriminate. }
    match goal with
    | |- context [let (tr', r) := ?m in _] =>
        destruct m as [tr2 r2] eqn:Hstep
    end.
    assert (Hall : forallb is_print tr2 = true /\ r2 = Ok tt).
    { destruct P; inversion Hstep; subst; (split; [|reflexivity]).
      - cbn. exact Hp.
      - cbn. rewrite forallb_app. cbn. now rewrite Hp. }
    destruct Hall as [Hall ->]. clear Hstep.
    destruct (rows_of (read_csv w (input_csv a))) as [rows|e] eqn:Hrows.
    2:{ cbn [fst]. intros Hin.
        apply (prints_only _ _ Hall) in Hin. discriminate. }
    rewrite mark_suspects_ok.
    set (full := map (mark_row P _) (merge_assignments (map derive_row rows))).
    assert (Hfull : mark_suspects rows P = Ok full) by apply mark_suspects_ok.
    assert (Hstrip : map strip_columns full = rows)
      by (eapply mark_suspects_strip; exact Hfull).
    assert (Hlen : List.length full = List.length (data (read_csv w (input_csv a)))).
    { rewrite <- (rows_of_length _ _ Hrows).
      rewrite <- Hstrip at 1. now rewrite length_map. }
    clearbody full.
    destruct (Path.with_suffix (saida_base a) ".contatos_tratados.csv")
      as [p1|e1].
    2:{ cbn [fst]. intros Hin.
        apply (prints_only _ _ Hall) in Hin. discriminate. }
    destruct (Path.with_suffix (saida_base a) ".contatos_suspeitos_isolados.csv")
      as [p2|e2].
    2:{ cbn [fst]. intros Hin.
        apply (prints_only _ _ Hall) in Hin. discriminate. }
    rewrite with_suffix_pac. cbn [fst].
    intros Hin. apply in_app_or in Hin. destruct Hin as [Hin|Hin].
    + apply in_app_or in Hin. destruct Hin as [Hin|Hin].
      * apply (prints_only _ _ Hall) in Hin. discriminate.
      * destruct Hin as [E|[]]. injection E as _ <-.
        exists rows, P, full. auto 6.
    + destruct Hin as [E|[]]. injection E as _ <-.
      exists rows, P, full. auto 6.
Qed.

Lemma main_all_or_nothing_witness :
  (~ In "Email" ["Name"; "Company Name"]
   \/ ~ In "Company Name" ["Name"; "Company Name"])
  /\ (exists e, snd (main world_without_email default_args []) = Raise e)
  /\ forallb is_print (fst (main world_without_email default_args [])) = true.
Proof.
  assert (H : ~ In "Email" ["Name"; "Company Name"]
              \/ ~ In "Company Name" ["Name"; "Company Name"]).
  { left. cbn. intros [E|[E|[]]]; discriminate. }
  split; [exact H|].
  destruct (proj1 (main_all_or_nothing world_without_email default_args) H)
    as [He [Hp _]].
  split; [exact He | exact Hp].
Defined.

(** * Further properties of the code *)

(** ** Normal form of extracted domains *)

Lemma lower_char_idem (c : ascii) : Py.lower_char (Py.lower_char c) = Py.lower_char c.
Proof. destruct c as [[] [] [] [] [] [] [] []]; reflexivity. Qed.

Lemma isspace_lower_char (c : ascii) : Py.isspace (Py.lower_char c) = Py.isspace c.
Proof. destruct c as [[] [] [] [] [] [] [] []]; reflexivity. Qed.

Lemma lower_char_at (c : ascii) :
  Ascii.eqb (Py.lower_char c) "@" = Ascii.eqb c "@".
Proof. destruct c as [[] [] [] [] [] [] [] []]; reflexivity. Qed.

Lemma lower_idem (s : string) : Py.lower (Py.lower s) = Py.lower s.
Proof.
  induction s as [|c t IH]; [reflexivity|].
  cbn [Py.lower]. now rewrite lower_char_idem, IH.
Qed.

Lemma lstrip_lower (s : string) : Py.lstrip (Py.lower s) = Py.lower (Py.lstrip s).
Proof.
  induction s as [|c t IH]; [reflexivity|].
  cbn [Py.lower Py.lstrip]. rewrite isspace_lower_char.
  destruct (Py.isspace c); [exact IH | reflexivity].
Qed.

Lemma lower_empty (s : string) : Py.lower s = EmptyString <-> s = EmptyString.
Proof. destruct s; cbn; split; congruence. Qed.

Lemma rstrip_lower (s : string) : Py.rstrip (Py.lower s) = Py.lower (Py.rstrip s).
Proof.
  induction s as [|c t IH]; [reflexivity|].
  cbn [Py.lower Py.rstrip]. rewrite IH, isspace_lower_char.
  destruct (Py.rstrip t) as [|a u]; cbn [Py.lower].
  - now destruct (Py.isspace c).
  - reflexivity.
Qed.

Lemma strip_lower (s : string) : Py.strip (Py.lower s) = Py.lower (Py.strip s).
Proof. unfold Py.strip. now rewrite lstrip_lower, rstrip_lower. Qed.

Lemma rstrip_cons (c : ascii) (t : string) :
  Py.rstrip (String c t)
  = match Py.rstrip t with
    | EmptyString => if Py.isspace c then EmptyString else String c EmptyString
    | t' => String c t'
    end.
Proof. reflexivity. Qed.

Lemma rstrip_idem (s : string) : Py.rstrip (Py.rstrip s) = Py.rstrip s.
Proof.
  induction s as [|c t IH]; [reflexivity|].
  rewrite rstrip_cons.
  destruct (Py.rstrip t) as [|a u] eqn:E.
  - destruct (Py.isspace c) eqn:Hc; [reflexivity|].
    rewrite rstrip_cons. cbn [Py.rstrip]. now rewrite Hc.
  - rewrite rstrip_cons, IH. reflexivity.
Qed.

Lemma lstrip_no_leading (s : string) : no_leading_space (Py.lstrip s).
Proof.
  induction s as [|c t IH]; [exact I|].
  cbn [Py.lstrip]. destruct (Py.isspace c) eqn:E; [exact IH | exact E].
Qed.

Lemma rstrip_no_leading (s : string) :
  no_leading_space s -> no_leading_space (Py.rstrip s).
Proof.
  destruct s as [|c t]; [trivial|]. cbn [no_leading_space Py.rstrip].
  intros Hc. destruct (Py.rstrip t); [now rewrite Hc | exact Hc].
Qed.

Lemma lstrip_fixed (s : string) : no_leading_space s -> Py.lstrip s = s.
Proof.
  destruct s as [|c t]; [reflexivity|]. cbn. now intros ->.
Qed.

Lemma strip_idem (s : string) : Py.strip (Py.strip s) = Py.strip s.
Proof.
  unfold Py.strip.
  rewrite (lstrip_fixed (Py.rstrip (Py.lstrip s)))
    by apply rstrip_no_leading, lstrip_no_leading.
  apply rstrip_idem.
Qed.

Lemma contains_lower (s : string) :
  Py.contains "@" (Py.lower s) = Py.contains "@" s.
Proof.
  induction s as [|c t IH]; [reflexivity|].
  cbn [Py.lower Py.contains]. now rewrite lower_char_at, IH.
Qed.

Lemma contains_lstrip (sep : ascii) (s : string) :
  Py.contains sep s = false -> Py.contains sep (Py.lstrip s) = false.
Proof.
  induction s as [|c t IH]; [trivial|].
  cbn [Py.lstrip]. destruct (Py.isspace c); [|trivial].
  cbn [Py.contains]. intros H. apply orb_false_iff in H. now apply IH.
Qed.

Lemma contains_rstrip (sep : ascii) (s : string) :
  Py.contains sep s = false -> Py.contains sep (Py.rstrip s) = false.
Proof.
  induction s as [|c t IH]; [trivial|].
  cbn [Py.contains Py.rstrip]. intros H. apply orb_false_iff in H.
  destruct H as [Hc Ht]. specialize (IH Ht).
  destruct (Py.rstrip t) as [|a u].
  - destruct (Py.isspace c); [reflexivity|]. cbn. now rewrite Hc.
  - cbn [Py.contains] in *. now rewrite Hc, IH.
Qed.

Lemma split_pieces (sep : ascii) (s piece : string) :
  In piece (Py.split sep s) -> Py.contains sep piece = false.
Proof.
  revert piece. induction s as [|c t IH]; intros piece Hin.
  - destruct Hin as [<-|[]]. reflexivity.
  - cbn [Py.split] in Hin. destruct (Ascii.eqb c sep) eqn:Hc.
    + destruct Hin as [<-|Hin]; [reflexivity | now apply IH].
    + destruct (Py.split sep t) as [|h r].
      * destruct Hin as [<-|[]]. cbn. now rewrite Hc.
      * destruct Hin as [<-|Hin].
        -- cbn [Py.contains]. rewrite Hc. apply IH. now left.
        -- apply IH. now right.
Qed.

Lemma last_In {A : Type} (l : list A) (d : A) : l <> [] -> In (last l d) l.
Proof.
  induction l as [|x t IH]; [congruence|]. intros _.
  destruct t as [|y u]; [now left|]. right. apply IH. discriminate.
Qed.

Lemma after_last_no_sep (sep : ascii) (s : string) :
  Py.contains sep (after_last sep s) = false.
Proof.
  rewrite <- last_split. apply (split_pieces sep s).
  apply last_In, split_not_nil.
Qed.

Lemma split_no_sep (sep : ascii) (s : string) :
  Py.contains sep s = false -> Py.split sep s = [s].
Proof.
  induction s as [|c t IH]; [reflexivity|].
  cbn [Py.contains Py.split]. intros H. apply orb_false_iff in H.
  destruct H as [Hc Ht]. now rewrite Hc, (IH Ht).
Qed.

Lemma split_two (sep : ascii) (s : string) :
  Py.contains sep s = true ->
  exists h h' r, Py.split sep s = h :: h' :: r.
Proof.
  induction s as [|c t IH]; [discriminate|].
  cbn [Py.contains Py.split]. destruct (Ascii.eqb c sep) eqn:Hc.
  - intros _. destruct (Py.split sep t) as [|h r] eqn:E;
      [exfalso; eapply split_not_nil; eassumption|]. eauto.
  - cbn [orb]. intros Ht. destruct (IH Ht) as [h [h' [r ->]]]. eauto.
Qed.

Lemma contains_append (sep : ascii) (l d : string) :
  Py.contains sep (l ++ String sep d)%string = true.
Proof.
  induction l as [|c t IH]; cbn [String.append Py.contains].
  - now rewrite Ascii.eqb_refl.
  - rewrite IH. apply orb_true_r.
Qed.

Lemma last_split_append (sep : ascii) (l d : string) :
  last (Py.split sep (l ++ String sep d)%string) EmptyString
  = last (Py.split sep d) EmptyString.
Proof.
  induction l as [|c t IH]; cbn [String.append Py.split].
  - rewrite Ascii.eqb_refl. apply last_cons_not_nil, split_not_nil.
  - destruct (Ascii.eqb c sep).
    + rewrite last_cons_not_nil by apply split_not_nil. exact IH.
    + destruct (split_two sep _ (contains_append sep t d)) as [h [h' [r E]]].
      rewrite E in *. rewrite <- IH. reflexivity.
Qed.

(** X1. A domain that [extract_domain] returns is in normal form: it holds
    no at-sign, has no whitespace at either end, and is its own lowercase;
    so extracting is stable under a second trimming or lowercasing. *)
Theorem extract_domain_normal_form (v : pyval) (d : string) :
  extract_domain v = Ok (Some d) ->
  Py.contains "@" d = false /\ Py.strip d = d /\ Py.lower d = d.
Proof.
  rewrite extract_domain_ok. destruct v as [s| | |z]; try discriminate.
  cbn [domain_of]. destruct (Py.contains "@" s); [|discriminate].
  intros E. inversion E; subst; clear E.
  split; [|split].
  - rewrite contains_lower. unfold Py.strip.
    apply contains_rstrip, contains_lstrip, after_last_no_sep.
  - now rewrite strip_lower, strip_idem.
  - apply lower_idem.
Qed.

Lemma extract_domain_normal_form_witness :
  extract_domain (PStr "Joe@ExAmple.COM ") = Ok (Some "example.com")
  /\ Py.contains "@" "example.com" = false.
Proof.
  assert (H : extract_domain (PStr "Joe@ExAmple.COM ") = Ok (Some "example.com"))
    by reflexivity.
  split; [exact H|].
  exact (proj1 (extract_domain_normal_form _ _ H)).
Defined.

(** X2. Round trip: any address made of a local part, an at-sign and a
    domain in normal form (no at-sign, trimmed, lowercase) gives back that
    domain, whatever the local part holds, at-signs included. *)
Theorem extract_domain_of_address (local d : string) :
  Py.contains "@" d = false -> Py.strip d = d -> Py.lower d = d ->
  extract_domain (PStr (local ++ String "@" d)%string) = Ok (Some d).
Proof.
  intros Hat Hs Hl. rewrite extract_domain_ok. cbn [domain_of].
  rewrite contains_append.
  rewrite <- last_split, last_split_append, (split_no_sep _ _ Hat).
  cbn [last]. now rewrite Hs, Hl.
Qed.

Lemma extract_domain_of_address_witness :
  extract_domain (PStr ("a@b" ++ String "@" "acme.com")%string)
  = Ok (Some "acme.com").
Proof.
  apply extract_domain_of_address; reflexivity.
Defined.

(** ** The resolvers: one assignment per key *)

Lemma domain_company_key_inv (r : derived) (d c : string) :
  domain_company_key r = Some (d, c)
  <-> domain r = Some d /\ Company_Name (base r) = Text c.
Proof.
  unfold domain_company_key.
  destruct (domain r) as [d'|]; [|split; [discriminate | intros [H _]; discriminate]].
  destruct (Company_Name (base r)) as [c'|];
    [|split; [discriminate | intros [_ H]; discriminate]].
  split.
  - intros E. inversion E. auto.
  - intros [E1 E2]. inversion E1. inversion E2. reflexivity.
Qed.

Lemma occurrences_pos (df : list derived) (d c : string) :
  1 <= occurrences_in_domain df d c
  <-> exists r, In r df /\ domain r = Some d /\ Company_Name (base r) = Text c.
Proof.
  unfold occurrences_in_domain. split.
  - intros H. apply filter_length_pos in H. destruct H as [r [Hr Hg]].
    fold (in_group d c r) in Hg. apply in_group_key in Hg.
    apply domain_company_key_inv in Hg. eauto.
  - intros [r [Hr Hk]]. apply (filter_length_In _ _ r Hr).
    fold (in_group d c r). apply in_group_key.
    now apply domain_company_key_inv.
Qed.

Lemma dominant_domains (df : list derived) (d : string) :
  In d (map da_domain (find_dominant_company_per_domain df))
  <-> exists s, In s (domain_stats df) /\ st_domain s = d.
Proof.
  split.
  - intros Hin. apply in_map_iff in Hin. destruct Hin as [a [<- Ha]].
    apply dominant_is_top in Ha. destruct Ha as [s [Hs [-> _]]].
    exists s. auto.
  - intros [s [Hs <-]].
    unfold find_dominant_company_per_domain. rewrite map_map.
    cbn [da_domain].
    destruct (drop_duplicates_complete st_domain []
                (Pd.sort_values (by_key_then_count_desc st_domain st_count)
                   (domain_stats df)) s) as [x [Hx Ex]].
    + now apply (sort_values_In st_domain st_company st_count).
    + intros [].
    + rewrite <- Ex. apply in_map. exact Hx.
Qed.

Lemma dominant_domain_rows (df : list derived) (d : string) :
  In d (map da_domain (find_dominant_company_per_domain df))
  <-> exists r c,
        In r df /\ domain r = Some d /\ Company_Name (base r) = Text c.
Proof.
  rewrite dominant_domains. split.
  - intros [s [Hs <-]]. apply domain_stats_In in Hs.
    destruct Hs as [_ [Hc Hpos]]. rewrite Hc in Hpos.
    apply occurrences_pos in Hpos. destruct Hpos as [r Hr]. eauto.
  - intros [r [c Hr]].
    assert (Hpos : 1 <= occurrences_in_domain df d c)
      by (apply occurrences_pos; eauto).
    exists (stat_of df ((d, c), occurrences_in_domain df d c)).
    split; [|reflexivity]. apply domain_stats_In.
    cbn [stat_of st_domain st_company st_count fst snd]. auto.
Qed.

(** X3. The dominant-company resolver returns exactly one assignment per
    domain that has at least one record with a company name: no domain
    twice, every such domain once, and no other domain.  The company it
    reports for a domain is the Company Name cell of a record of that
    domain. *)
Theorem dominant_one_per_domain (df : list derived) :
  NoDup (map da_domain (find_dominant_company_per_domain df))
  /\ (forall d,
         In d (map da_domain (find_dominant_company_per_domain df))
         <-> exists r c,
               In r df /\ domain r = Some d /\ Company_Name (base r) = Text c)
  /\ Forall (fun a =>
               exists r,
                 In r df /\ domain r = Some (da_domain a)
                 /\ Company_Name (base r) = Text (dominant_company a))
       (find_dominant_company_per_domain df).
Proof.
  split; [apply dominant_NoDup|]. split; [apply dominant_domain_rows|].
  apply Forall_forall. intros a Ha.
  apply dominant_top_count in Ha. destruct Ha as [Hpos _].
  now apply occurrences_pos.
Qed.

Section CanonicalKeys.
Context {R : Type} (CN : R -> cell).

Lemma spelling_pos (df : list R) (c : string) :
  1 <= spelling_occurrences CN df c
  <-> exists r, In r df /\ Py.strip (astype_str (CN r)) = c.
Proof.
  unfold spelling_occurrences. split.
  - intros H. apply filter_length_pos in H. destruct H as [r [Hr E]].
    apply String.eqb_eq in E. eauto.
  - intros [r [Hr E]]. apply (filter_length_In _ _ r Hr).
    now apply String.eqb_eq.
Qed.

Lemma canonical_norms (df : list R) (n : string) :
  In n (map ca_company_norm (find_canonical_company_by_name CN df))
  <-> exists r, In r df /\ Py.lower (Py.strip (astype_str (CN r))) = n.
Proof.
  split.
  - intros Hin. apply in_map_iff in Hin. destruct Hin as [a [<- Ha]].
    apply canonical_is_top in Ha. destruct Ha as [En [Hpos _]].
    apply spelling_pos in Hpos. destruct Hpos as [r [Hr E]].
    exists r. split; [assumption|]. now rewrite E, En.
  - intros [r [Hr <-]].
    set (c := Py.strip (astype_str (CN r))).
    assert (Hg : In ((Py.lower c, c), spelling_occurrences CN df c)
                   (name_stats CN df)).
    { apply name_stats_In. split; [reflexivity|]. split; [reflexivity|].
      apply spelling_pos. exists r. auto. }
    unfold find_canonical_company_by_name. rewrite map_map.
    cbn [ca_company_norm].
    destruct (drop_duplicates_complete
                (fun g : (string * string) * nat => fst (fst g)) []
                (Pd.sort_values
                   (by_key_then_count_desc
                      (fun g : (string * string) * nat => fst (fst g)) snd)
                   (name_stats CN df))
                ((Py.lower c, c), spelling_occurrences CN df c))
      as [x [Hx Ex]].
    + now apply (sort_values_In (fun g : (string * string) * nat => fst (fst g))
                   (fun g => snd (fst g)) snd).
    + intros [].
    + cbn [fst] in Ex. rewrite <- Ex.
      apply (in_map (fun g : (string * string) * nat => fst (fst g))).
      exact Hx.
Qed.

Lemma canonical_lookup (df : list R) (r : R) :
  In r df ->
  exists a,
    find (fun a => String.eqb (Py.lower (Py.strip (astype_str (CN r))))
                     (ca_company_norm a))
      (find_canonical_company_by_name CN df) = Some a
    /\ In a (find_canonical_company_by_name CN df)
    /\ ca_company_norm a = Py.lower (Py.strip (astype_str (CN r))).
Proof.
  intros Hr.
  set (n := Py.lower (Py.strip (astype_str (CN r)))).
  assert (Hn : In n (map ca_company_norm (find_canonical_company_by_name CN df)))
    by (apply canonical_norms; eauto).
  apply in_map_iff in Hn. destruct Hn as [a0 [E0 H0]].
  destruct (find (fun a => String.eqb n (ca_company_norm a))
              (find_canonical_company_by_name CN df)) as [a|] eqn:Ef.
  - apply find_some in Ef. destruct Ef as [Ha Ea].
    apply String.eqb_eq in Ea. exists a. auto.
  - exfalso. apply (find_none _ _ Ef) in H0.
    rewrite E0, String.eqb_refl in H0. discriminate.
Qed.
End CanonicalKeys.

(** X4. The canonical-name resolver returns exactly one assignment per
    normalized name that occurs in the table: no normalized name twice,
    every one that occurs once, and no other.  The canonical spelling of an
    assignment is the trimmed name of some record, and its lowercase is the
    normalized name it is assigned to. *)
Theorem canonical_one_per_name (df : list row) :
  NoDup (map ca_company_norm (find_canonical_company_by_name Company_Name df))
  /\ (forall n,
         In n (map ca_company_norm
                 (find_canonical_company_by_name Company_Name df))
         <-> exists r,
               In r df /\ Py.lower (Py.strip (astype_str (Company_Name r))) = n)
  /\ Forall (fun a =>
               ca_company_norm a = Py.lower (canonical_company a)
               /\ exists r,
                    In r df
                    /\ Py.strip (astype_str (Company_Name r))
                       = canonical_company a)
       (find_canonical_company_by_name Company_Name df).
Proof.
  split; [apply canonical_NoDup|]. split; [apply canonical_norms|].
  apply Forall_forall. intros a Ha. apply canonical_is_top in Ha.
  destruct Ha as [En [Hpos _]]. split; [assumption|].
  now apply spelling_pos.
Qed.

(** ** The merged frame *)

Lemma name_stats_ext {R S : Type} (f : R -> cell) (g : S -> cell)
    (l : list R) (l' : list S) :
  map f l = map g l' -> name_stats f l = name_stats g l'.
Proof.
  intros E. unfold name_stats.
  rewrite <- (map_map f (fun c => Py.strip (astype_str c))).
  rewrite <- (map_map g (fun c => Py.strip (astype_str c))).
  now rewrite E.
Qed.

Lemma find_canonical_ext {R S : Type} (f : R -> cell) (g : S -> cell)
    (l : list R) (l' : list S) :
  map f l = map g l' ->
  find_canonical_company_by_name f l = find_canonical_company_by_name g l'.
Proof.
  intros E. unfold find_canonical_company_by_name.
  now rewrite (name_stats_ext f g l l' E).
Qed.

Lemma merge_assignments_eq (df : list derived) :
  merge_assignments df
  = map (fun l => ((l, dominant_for df l), canonical_for df l)) df.
Proof.
  unfold merge_assignments.
  rewrite (merge_left_unique ca_company_norm) by apply canonical_NoDup.
  rewrite (merge_left_unique da_domain) by apply dominant_NoDup.
  rewrite map_map. cbn [fst].
  assert (E : find_canonical_company_by_name
                (fun r : derived * option DominantAssignment =>
                   Company_Name (base (fst r)))
                (map (fun l => (l, match domain l with
                                   | Some k =>
                                       find (fun r => String.eqb k (da_domain r))
                                         (find_dominant_company_per_domain df)
                                   | None => None
                                   end)) df)
              = find_canonical_company_by_name
                  (fun r => Company_Name (base r)) df).
  { apply find_canonical_ext. now rewrite map_map. }
  rewrite E. reflexivity.
Qed.

Lemma derive_row_names (df : list row) :
  find_canonical_company_by_name (fun r => Company_Name (base r))
    (map derive_row df)
  = find_canonical_company_by_name Company_Name df.
Proof. apply find_canonical_ext. now rewrite map_map. Qed.

Lemma canonical_for_derived (df : list row) (r : row) :
  In r df ->
  exists a,
    canonical_for (map derive_row df) (derive_row r) = Some a
    /\ In a (find_canonical_company_by_name Company_Name df)
    /\ ca_company_norm a = company_norm (derive_row r).
Proof.
  intros Hr. unfold canonical_for. rewrite derive_row_names.
  destruct (canonical_lookup Company_Name df r Hr) as [a [Hf [Ha En]]].
  exists a. cbn [derive_row derive company_norm]. auto.
Qed.

Lemma mark_row_counts_ext (P : list string) (c1 c2 : string -> nat)
    (r : merged) :
  (forall k, c1 k = c2 k) -> mark_row P c1 r = mark_row P c2 r.
Proof.
  intros H. unfold mark_row, loop_body, check_singleton. now rewrite H.
Qed.

Lemma value_counts_spelling (df : list row) (k : string) :
  Pd.value_counts_get String.eqb (map company_clean (map derive_row df)) k
  = spelling_occurrences Company_Name df k.
Proof.
  unfold Pd.value_counts_get, spelling_occurrences.
  rewrite map_map, filter_map_comm, length_map. f_equal.
  apply filter_ext. intros x. cbn [derive_row derive company_clean].
  apply String.eqb_sym.
Qed.

Lemma marked_rows (df : list row) (P : list string) :
  mark_suspects df P =
  Ok (map (fun r =>
             mark_row P (spelling_occurrences Company_Name df)
               ((derive_row r, dominant_for (map derive_row df) (derive_row r)),
                canonical_for (map derive_row df) (derive_row r))) df).
Proof.
  rewrite mark_suspects_ok, merge_assignments_eq, !map_map. f_equal.
  apply map_ext. intros r.
  apply mark_row_counts_ext. intros k.
  rewrite <- value_counts_spelling. now rewrite map_map.
Qed.

(** X5. Every row of the result carries a canonical company, and that
    company differs from the row's company_clean in letter case at most:
    both have the same lowercase, the row's company_norm. *)
Theorem canonical_always_present (df : list row) (P : list string) :
  exists out,
    mark_suspects df P = Ok out
    /\ Forall (fun m =>
                 exists cc,
                   get_canonical_company (columns_of m) = Some cc
                   /\ Py.lower cc = company_norm (cols (columns_of m))
                   /\ Py.lower cc = Py.lower (company_clean (cols (columns_of m))))
         out.
Proof.
  eexists. split; [apply marked_rows|].
  apply Forall_map, Forall_forall. intros r Hr.
  destruct (canonical_for_derived df r Hr) as [a [Hf [Ha En]]].
  exists (canonical_company a).
  cbn [mark_row columns_of]. unfold get_canonical_company, cols.
  cbn [fst snd]. rewrite Hf. cbn [option_map].
  apply canonical_is_top in Ha. destruct Ha as [En' _].
  split; [reflexivity|]. rewrite <- En', En. split; reflexivity.
Qed.

(** X6. A row of the result carries a dominant assignment exactly when its
    domain is present and some record of the table with that domain has a
    company name; the assignment is then the one of the row's domain.  A
    record without company name is thus still compared with the dominant
    company of its domain. *)
Theorem dominant_present_iff (df : list row) (P : list string) :
  exists out,
    mark_suspects df P = Ok out
    /\ Forall (fun m =>
                 ((exists a, snd (fst (columns_of m)) = Some a)
                  <-> exists d r c,
                        get_domain (columns_of m) = Some d
                        /\ In r df
                        /\ domain_of (value_of (Email r)) = Some d
                        /\ Company_Name r = Text c)
                 /\ forall a, snd (fst (columns_of m)) = Some a ->
                              get_domain (columns_of m) = Some (da_domain a))
         out.
Proof.
  eexists. split; [apply marked_rows|].
  apply Forall_map, Forall_forall. intros r Hr.
  cbn [mark_row columns_of fst snd]. unfold get_domain, cols. cbn [fst].
  unfold dominant_for.
  destruct (domain (derive_row r)) as [d|] eqn:Ed.
  2:{ split; [|discriminate]. split.
      - intros [a Ha]. discriminate.
      - intros [d [r' [c [H _]]]]. discriminate. }
  pose proof (dominant_domain_rows (map derive_row df) d) as Hdom.
  split.
  - split.
    + intros [a Ha]. apply find_some in Ha. destruct Ha as [Ha Ea].
      apply String.eqb_eq in Ea.
      assert (Hin : In d (map da_domain
                            (find_dominant_company_per_domain (map derive_row df))))
        by (rewrite Ea; now apply in_map).
      apply Hdom in Hin. destruct Hin as [l [c [Hl [Hd Hc]]]].
      apply in_map_iff in Hl. destruct Hl as [r' [<- Hr']].
      exists d, r', c. auto.
    + intros [d' [r' [c [E [Hr' [Hd Hc]]]]]]. inversion E; subst d'.
      assert (Hin : In d (map da_domain
                            (find_dominant_company_per_domain (map derive_row df)))).
      { apply Hdom. exists (derive_row r'), c.
        split; [now apply in_map|]. auto. }
      apply in_map_iff in Hin. destruct Hin as [a [Ea Ha]].
      destruct (find (fun a0 => String.eqb d (da_domain a0))
                  (find_dominant_company_per_domain (map derive_row df)))
        as [a'|] eqn:Ef; [eauto|].
      exfalso. apply (find_none _ _ Ef) in Ha.
      rewrite Ea, String.eqb_refl in Ha. discriminate.
  - intros a Ha. apply find_some in Ha. destruct Ha as [_ Ea].
    apply String.eqb_eq in Ea. now rewrite Ea.
Qed.

(** ** The four heuristics, row by row *)

Ltac reason_cases :=
  repeat match goal with
    | H : (_ =? _) = true |- _ => apply Nat.eqb_eq in H
    | H : (_ =? _) = false |- _ => apply Nat.eqb_neq in H
    | H : negb (Py.mem _ _) = true |- _ => apply negb_true_iff in H
    | H : negb (Py.mem _ _) = false |- _ => apply negb_false_iff in H
    end;
  cbn [In];
  split; intros;
  repeat match goal with
    | H : _ \/ _ |- _ => destruct H
    | H : _ /\ _ |- _ => destruct H
    | H : False |- _ => contradiction
    end;
  repeat split;
  try discriminate; try congruence; auto 6.

Lemma mark_row_singleton (P : list string) (counts : string -> nat) (r : merged) :
  In Appears_once (suspect_reasons (mark_row P counts r))
  <-> counts (company_clean (cols r)) = 1.
Proof.
  open_row r; split_ifs; reason_cases.
Qed.

Lemma mark_row_prospects (P : list string) (counts : string -> nat) (r : merged) :
  In Not_in_prospects (suspect_reasons (mark_row P counts r))
  <-> P <> [] /\ Py.mem (company_clean (cols r)) P = false.
Proof.
  open_row r; split_ifs; reason_cases.
Qed.

(** X7. The singleton heuristic: a row of the result carries the reason
    "appears only once" exactly when its trimmed company name is the
    trimmed name of exactly one record of the whole table, and such a row
    is always suspect, whatever its domain and the allow-list. *)
Theorem singleton_heuristic (df : list row) (P : list string) :
  exists out,
    mark_suspects df P = Ok out
    /\ Forall (fun m =>
                 (In Appears_once (suspect_reasons m)
                  <-> spelling_occurrences Company_Name df
                        (company_clean (cols (columns_of m))) = 1)
                 /\ (In Appears_once (suspect_reasons m) -> is_suspect m = true))
         out.
Proof.
  eexists. split; [apply marked_rows|].
  apply Forall_map, Forall_forall. intros r _. split.
  - apply mark_row_singleton.
  - intros Hin.
    match goal with
    | |- is_suspect (mark_row ?P ?c ?x) = true =>
        pose proof (mark_row_flag P c x) as Hf
    end.
    cbv zeta in Hf. rewrite Hf.
    destruct (suspect_reasons _); [contradiction | reflexivity].
Qed.

(** X8. The allow-list heuristic: without allow-list (an empty one) no row
    carries the reason "not in the prospect list"; with a non-empty one a
    row carries it exactly when its trimmed company name is not, as an
    exact string, one of the names of the list. *)
Theorem allow_list_heuristic (df : list row) (P : list string) :
  exists out,
    mark_suspects df P = Ok out
    /\ Forall (fun m =>
                 In Not_in_prospects (suspect_reasons m)
                 <-> P <> [] /\ ~ In (company_clean (cols (columns_of m))) P)
         out.
Proof.
  eexists. split; [apply marked_rows|].
  apply Forall_map, Forall_forall. intros r _.
  rewrite mark_row_prospects. cbn [mark_row columns_of].
  rewrite <- mem_In.
  destruct (Py.mem _ P); split; intros [H1 H2]; split; auto; congruence.
Qed.

Lemma mark_row_order (P : list string) (counts : string -> nat) (r : merged) :
  let m := mark_row P counts r in
  StronglySorted lt (map reason_rank (suspect_reasons m))
  /\ (is_suspect m = false -> suggested_company m = None).
Proof.
  open_row r; split_ifs;
    (split; [cbn [map reason_rank]; repeat constructor; lia
            | intros; try discriminate; reflexivity]).
Qed.

(** X9. The reasons of a row are listed in the order of the heuristics,
    each heuristic at most once (so at most four), and a row that is not
    suspect has no suggestion. *)
Theorem reasons_in_order (df : list row) (P : list string) :
  exists out,
    mark_suspects df P = Ok out
    /\ Forall (fun m =>
                 StronglySorted lt (map reason_rank (suspect_reasons m))
                 /\ List.length (suspect_reasons m) <= 4
                 /\ (is_suspect m = false -> suggested_company m = None))
         out.
Proof.
  eexists. split; [apply marked_rows|].
  apply Forall_map, Forall_forall. intros r _.
  match goal with
  | |- context [mark_row ?P ?c ?x] =>
      pose proof (mark_row_order P c x) as [Hs Hn];
      pose proof (mark_row_flag P c x) as Hf; cbv zeta in Hf;
      set (m := mark_row P c x) in *
  end.
  split; [exact Hs|]. split; [|exact Hn].
  clear Hn Hf. revert Hs.
  assert (Hr : forall x, In x (suspect_reasons m) ->
                         1 <= reason_rank x <= 4)
    by (intros [] _; cbn; lia).
  revert Hr. generalize (suspect_reasons m). clear.
  intros l Hr Hs.
  assert (Hgen : forall k, Forall (fun n => k <= n <= 4) (map reason_rank l) ->
                           StronglySorted lt (map reason_rank l) ->
                           List.length (map reason_rank l) <= 5 - k).
  { generalize (map reason_rank l). clear.
    induction l as [|n t IH]; intros k Hb Hs; [cbn; lia|].
    apply StronglySorted_inv in Hs. destruct Hs as [Hs Hall].
    apply Forall_cons_iff in Hb. destruct Hb as [Hn Hb].
    cbn [List.length]. specialize (IH (S n)).
    assert (Hb' : Forall (fun m => S n <= m <= 4) t).
    { rewrite Forall_forall in *. intros x Hx.
      specialize (Hall x Hx). specialize (Hb x Hx). lia. }
    specialize (IH Hb' Hs). lia. }
  specialize (Hgen 1). rewrite length_map in Hgen.
  assert (Hb : Forall (fun n => 1 <= n <= 4) (map reason_rank l)).
  { apply Forall_forall. intros n Hn. apply in_map_iff in Hn.
    destruct Hn as [x [<- Hx]]. now apply Hr. }
  specialize (Hgen Hb Hs). lia.
Qed.

Lemma mark_row_allow_list (P : list string) (counts : string -> nat) (r : merged) :
  let m0 := mark_row [] counts r in
  let m := mark_row P counts r in
  columns_of m = columns_of m0
  /\ suggested_company m = suggested_company m0
  /\ suspect_reasons m0
     = filter (fun x => negb (is_prospect_reason x)) (suspect_reasons m)
  /\ (is_suspect m0 = true -> is_suspect m = true).
Proof.
  open_row r; split_ifs; repeat split; try discriminate; try congruence.
Qed.

Lemma Forall2_map_same {A B C : Type} (rel : B -> C -> Prop)
    (f : A -> B) (g : A -> C) (l : list A) :
  (forall x, rel (f x) (g x)) -> Forall2 rel (map f l) (map g l).
Proof.
  intros H. induction l as [|x t IH]; cbn; constructor; auto.
Qed.

(** X10. Supplying an allow-list only adds: row by row, the result with an
    allow-list has the same added columns and the same suggestion as the
    result without one, its reasons are those of the result without one
    plus possibly "not in the prospect list", and every row that is suspect
    without allow-list is suspect with it. *)
Theorem allow_list_only_adds (df : list row) (P : list string) :
  exists out0 out,
    mark_suspects df [] = Ok out0
    /\ mark_suspects df P = Ok out
    /\ Forall2 (fun m0 m =>
                  columns_of m = columns_of m0
                  /\ suggested_company m = suggested_company m0
                  /\ suspect_reasons m0
                     = filter (fun x => negb (is_prospect_reason x))
                         (suspect_reasons m)
                  /\ (is_suspect m0 = true -> is_suspect m = true))
         out0 out.
Proof.
  eexists. eexists. split; [apply marked_rows|]. split; [apply marked_rows|].
  apply Forall2_map_same. intros r. apply mark_row_allow_list.
Qed.

(** ** The canonical-spelling heuristic against the resolver *)

Lemma NoDup_map_inj {A B : Type} (f : A -> B) (l : list A) (x y : A) :
  NoDup (map f l) -> In x l -> In y l -> f x = f y -> x = y.
Proof.
  induction l as [|z t IH]; intros Hnd Hx Hy E; [contradiction|].
  cbn in Hnd. apply NoDup_cons_iff in Hnd. destruct Hnd as [Hz Hnd].
  destruct Hx as [->|Hx], Hy as [->|Hy]; auto.
  - exfalso. apply Hz. rewrite E. now apply in_map.
  - exfalso. apply Hz. rewrite <- E. now apply in_map.
Qed.

Lemma mark_row_canonical_indep (P : list string) (counts : string -> nat)
    (r : merged) :
  flagged_by_canonical (mark_row P counts r)
  = flagged_by_canonical (mark_row [] (fun _ => 0) r)
  /\ suggestion_4 (mark_row P counts r)
     = suggestion_4 (mark_row [] (fun _ => 0) r)
  /\ suggested_company (mark_row P counts r)
     = suggested_company (mark_row [] (fun _ => 0) r).
Proof.
  open_row r; split_ifs; repeat split; reflexivity || (cbn in *; congruence).
Qed.

Lemma mark_row_canonical_assignment (df : list row) (P : list string)
    (counts : string -> nat) (r : row) :
  In r df ->
  canonical_assignment_rule (find_canonical_company_by_name Company_Name df)
    (mark_row P counts
       ((derive_row r, dominant_for (map derive_row df) (derive_row r)),
        canonical_for (map derive_row df) (derive_row r))).
Proof.
  intros Hr. destruct (canonical_for_derived df r Hr) as [a [Hf [Ha En]]].
  set (m := mark_row P counts _).
  assert (Hg : get_canonical_company (columns_of m)
               = Some (canonical_company a)).
  { unfold m, get_canonical_company. cbn [mark_row columns_of snd].
    now rewrite Hf. }
  destruct (mark_row_canonical P counts (columns_of m)) as [Hrule [_ _]].
  change (mark_row P counts (columns_of m)) with m in Hrule.
  destruct (Hrule _ Hg) as [Hiff Hreason].
  exists a. unfold m at 1. cbn [mark_row columns_of snd].
  split; [exact Hf|]. split; [exact Ha|]. split; [exact En|].
  split.
  { intros a' Ha' En'.
    apply (NoDup_map_inj ca_company_norm
             (find_canonical_company_by_name Company_Name df));
      [apply canonical_NoDup | assumption | assumption
      | exact (eq_trans En' (eq_sym En))]. }
  split; [exact Hg|]. split; [exact Hiff|]. split; [exact Hreason|].
  unfold suggestion_4. now rewrite Hg.
Qed.

(** C4. Every table is classified, with one row of the result per record.
    On every row: the row carries the assignment that the canonical-name
    resolver computed for its company_norm (there is exactly one), the
    canonical-spelling heuristic fires exactly when company_clean differs
    from the canonical company of that assignment, it then records its
    reason, and it would not fire on a row that carried no canonical
    company; the suggestion is the first non-null one among heuristic 1 and
    heuristic 4, in that order, and absent when neither proposes one.
    Heuristics 2 and 3 leave the suggestion as it is.  In scenario D
    (Globex Corp three times, globex corp once), whatever the allow-list,
    the canonical company of every row is Globex Corp, the heuristic flags
    the globex corp record only, and that record is suggested Globex Corp.
    On a record that heuristic 1 proposes Initech for and heuristic 4
    Globex Corp, the suggestion is Initech. *)
Theorem canonical_heuristic (df : list row) (P : list string) :
  (exists out,
      mark_suspects df P = Ok out
      /\ map strip_columns out = df
      /\ Forall (canonical_assignment_rule
                   (find_canonical_company_by_name Company_Name df)) out
      /\ Forall canonical_rule out)
  /\ (forall counts r v,
         v_suggest (check_prospects P r v) = v_suggest v
         /\ v_suggest (check_singleton counts r v) = v_suggest v)
  /\ (exists out,
         mark_suspects scenario_D P = Ok out
         /\ map (fun m => company_clean (cols (columns_of m))) out
            = ["Globex Corp"; "Globex Corp"; "Globex Corp"; "globex corp"]
         /\ map (fun m => get_canonical_company (columns_of m)) out
            = [Some "Globex Corp"; Some "Globex Corp"; Some "Globex Corp";
               Some "Globex Corp"]
         /\ map flagged_by_dominance out = [false; false; false; false]
         /\ map flagged_by_canonical out = [false; false; false; true]
         /\ map suggested_company out = [None; None; None; Some "Globex Corp"])
  /\ (exists out,
         mark_suspects scenario_priority P = Ok out
         /\ nth_error (map suggestion_1 out) 3 = Some (Some "Initech")
         /\ nth_error (map suggestion_4 out) 3 = Some (Some "Globex Corp")
         /\ nth_error (map suggested_company out) 3 = Some (Some "Initech")).
Proof.
  split; [|split; [|split]].
  - eexists. split; [apply marked_rows|]. split; [|split].
    + eapply mark_suspects_strip. apply marked_rows.
    + apply Forall_map, Forall_forall. intros r Hr.
      now apply mark_row_canonical_assignment.
    + apply Forall_map, Forall_forall. intros r _. apply mark_row_canonical.
  - intros counts r v. unfold check_prospects, check_singleton. split.
    + destruct P; [reflexivity|]. now destruct (negb _).
    + now destruct (_ =? _).
  - eexists. split; [apply mark_suspects_ok|].
    rewrite !map_map.
    let v := eval vm_compute in (merge_assignments (map derive_row scenario_D)) in
    assert (Hm : merge_assignments (map derive_row scenario_D) = v)
      by (vm_compute; reflexivity).
    rewrite Hm. cbn [map].
    split; [reflexivity|]. split; [reflexivity|].
    split; [|split].
    + rewrite !(proj1 (mark_row_dominance_indep P _ _)). reflexivity.
    + rewrite !(proj1 (mark_row_canonical_indep P _ _)). reflexivity.
    + rewrite !(proj2 (proj2 (mark_row_canonical_indep P _ _))). reflexivity.
  - eexists. split; [apply mark_suspects_ok|].
    rewrite !map_map.
    let v := eval vm_compute in
               (merge_assignments (map derive_row scenario_priority)) in
    assert (Hm : merge_assignments (map derive_row scenario_priority) = v)
      by (vm_compute; reflexivity).
    rewrite Hm. cbn [map nth_error].
    split; [|split].
    + rewrite (proj2 (mark_row_dominance_indep P _ _)). reflexivity.
    + rewrite (proj1 (proj2 (mark_row_canonical_indep P _ _))). reflexivity.
    + rewrite (proj2 (proj2 (mark_row_canonical_indep P _ _))). reflexivity.
Qed.

(** ** A consistent table *)

Lemma mark_row_clean (P : list string) (counts : string -> nat) (r : merged) :
  (forall dc, get_dominant_company r = Some dc -> dc = company_clean (cols r)) ->
  (P = [] \/ Py.mem (company_clean (cols r)) P = true) ->
  counts (company_clean (cols r)) <> 1 ->
  (forall cc, get_canonical_company r = Some cc -> cc = company_clean (cols r)) ->
  suspect_reasons (mark_row P counts r) = [].
Proof.
  open_row r; intros H1 H2 H3 H4;
    try specialize (H1 _ eq_refl); try specialize (H4 _ eq_refl);
    split_ifs; try reflexivity; exfalso;
    repeat match goal with
      | H : (_ =? _) = true |- _ => apply Nat.eqb_eq in H
      | H : _ \/ _ |- _ => destruct H
      | H : _ = company_clean _ |- _ => rewrite H in *; clear H
      end;
    rewrite ?String.eqb_refl in *; cbn in *;
    try discriminate; try congruence;
    match goal with
    | H : ?b = true, H' : negb ?b = true |- _ =>
        rewrite H in H'; discriminate
    end.
Qed.

Lemma filter_all {A : Type} (f : A -> bool) (l : list A) :
  (forall x, In x l -> f x = true) -> filter f l = l.
Proof.
  induction l as [|x t IH]; intros H; [reflexivity|].
  cbn. rewrite (H x) by now left. f_equal. apply IH.
  intros y Hy. apply H. now right.
Qed.

(** X11. A table that spells one company one way is not flagged: when
    every record holds the same company name, already trimmed, the table
    has at least two records, and the allow-list is empty or holds that
    name, no row of the result is suspect, has a reason or has a
    suggestion. *)
Theorem consistent_table_not_flagged (df : list row) (P : list string)
    (c : string) :
  2 <= List.length df ->
  Py.strip c = c ->
  (forall r, In r df -> Company_Name r = Text c) ->
  P = [] \/ In c P ->
  exists out,
    mark_suspects df P = Ok out
    /\ Forall (fun m =>
                 is_suspect m = false
                 /\ suspect_reasons m = []
                 /\ suggested_company m = None) out.
Proof.
  intros Hlen Hc Hall HP.
  eexists. split; [apply marked_rows|].
  apply Forall_map, Forall_forall. intros r Hr.
  match goal with
  | |- context [mark_row ?P ?cn ?x] =>
      pose proof (mark_row_flag P cn x) as Hf; cbv zeta in Hf;
      pose proof (proj2 (mark_row_order P cn x)) as Hn;
      assert (Hre : suspect_reasons (mark_row P cn x) = [])
  end.
  { assert (Hclean : company_clean (derive_row r) = c).
    { cbn [derive_row derive company_clean].
      now rewrite (Hall r Hr). }
    apply mark_row_clean; unfold cols; cbn [fst]; rewrite Hclean.
    - unfold get_dominant_company. cbn [fst snd]. intros dc Hdc.
      destruct (dominant_for (map derive_row df) (derive_row r)) as [a|] eqn:Ea;
        [|discriminate].
      cbn in Hdc. inversion Hdc; subst dc. clear Hdc.
      unfold dominant_for in Ea.
      destruct (domain (derive_row r)); [|discriminate].
      apply find_some in Ea. destruct Ea as [Ha _].
      apply dominant_top_count in Ha. destruct Ha as [Hpos _].
      apply occurrences_pos in Hpos. destruct Hpos as [l [Hl [_ Hcn]]].
      apply in_map_iff in Hl. destruct Hl as [r' [<- Hr']].
      cbn [derive_row derive base] in Hcn.
      rewrite (Hall r' Hr') in Hcn. now inversion Hcn.
    - destruct HP as [->|HP]; [now left|]. right. now apply mem_In.
    - unfold spelling_occurrences. rewrite filter_all; [lia|].
      intros x Hx. rewrite (Hall x Hx). cbn [astype_str].
      rewrite Hc. apply String.eqb_refl.
    - unfold get_canonical_company. cbn [snd]. intros cc Hcc.
      destruct (canonical_for (map derive_row df) (derive_row r)) as [a|] eqn:Ea;
        [|discriminate].
      cbn in Hcc. inversion Hcc; subst cc. clear Hcc.
      unfold canonical_for in Ea. rewrite derive_row_names in Ea.
      apply find_some in Ea. destruct Ea as [Ha _].
      apply canonical_is_top in Ha. destruct Ha as [_ [Hpos _]].
      apply spelling_pos in Hpos. destruct Hpos as [r' [Hr' E]].
      rewrite (Hall r' Hr') in E. cbn [astype_str] in E. congruence. }
  rewrite Hre in Hf. cbn in Hf.
  split; [exact Hf|]. split; [exact Hre|]. now apply Hn.
Qed.

Lemma consistent_table_not_flagged_witness :
  exists out,
    mark_suspects consistent_table ["Acme Inc"] = Ok out
    /\ Forall (fun m =>
                 is_suspect m = false
                 /\ suspect_reasons m = []
                 /\ suggested_company m = None) out.
Proof.
  apply (consistent_table_not_flagged consistent_table ["Acme Inc"] "Acme Inc").
  - cbn. lia.
  - reflexivity.
  - intros r [<-|[<-|[]]]; reflexivity.
  - right. now left.
Defined.

(** ** [load_prospect_companies] *)

Lemma index_of_In (c : string) (names : list string) :
  In c names -> exists i, index_of c names = Some i.
Proof.
  induction names as [|n t IH]; intros Hin; [contradiction|].
  cbn [index_of]. destruct (String.eqb c n) eqn:E; [eauto|].
  destruct Hin as [->|Hin]; [rewrite String.eqb_refl in E; discriminate|].
  destruct (IH Hin) as [i ->]. cbn. eauto.
Qed.

Lemma getitem_present (df : frame) (c : string) :
  In c (columns df) -> exists col, getitem df c = Ok col.
Proof.
  intros Hin. unfold getitem.
  destruct (index_of_In c _ Hin) as [i ->]. eauto.
Qed.

Lemma dropna_strip_trimmed (col : list cell) :
  Forall (fun n => Py.strip n = n) (dropna_strip col).
Proof.
  unfold dropna_strip. apply Forall_forall. intros n Hn.
  apply in_flat_map in Hn. destruct Hn as [c [_ Hn]].
  destruct c as [s|]; [|contradiction].
  destruct Hn as [<-|[]]. apply strip_idem.
Qed.

(** X12. Every name the allow-list loader returns is trimmed, whatever the
    kind of file; the names read from a text file are, besides, not empty
    (blank lines give no name). *)
Theorem prospect_names_trimmed (w : world) (p : option string)
    (tr : list event) (names : list string) :
  snd (load_prospect_companies w p tr) = Ok names ->
  Forall (fun n => Py.strip n = n) names
  /\ ((exists path, p = Some path /\ Py.lower (Path.suffix path) = ".txt") ->
      Forall (fun n => n <> "") names).
Proof.
  unfold load_prospect_companies.
  destruct p as [path|].
  2:{ cbn. intros E. inversion E. split; [constructor|]. constructor. }
  destruct (String.eqb path "").
  { cbn. intros E. inversion E. split; constructor. }
  destruct (negb (exists_ w path)).
  { cbn. intros E. inversion E. split; constructor. }
  destruct (String.eqb (Py.lower (Path.suffix path)) ".txt") eqn:Et.
  - cbn. intros E. inversion E; subst; clear E. split.
    + apply Forall_forall. intros n Hn. apply filter_In in Hn.
      destruct Hn as [Hn _]. apply in_map_iff in Hn.
      destruct Hn as [l [<- _]]. apply strip_idem.
    + intros _. apply Forall_forall. intros n Hn. apply filter_In in Hn.
      destruct Hn as [_ Hn]. apply negb_true_iff in Hn.
      now apply String.eqb_neq.
  - apply String.eqb_neq in Et.
    destruct (filter _ (columns (read_csv w path))) as [|col cs];
      [discriminate|].
    unfold bind, lift, ret.
    destruct (getitem (read_csv w path) col) as [cells|e]; [|discriminate].
    cbn. intros E. inversion E; subst; clear E.
    split; [apply dropna_strip_trimmed|].
    intros [path' [E' Hs]]. inversion E'; subst. contradiction.
Qed.

Lemma prospect_names_trimmed_witness :
  let w := {| exists_ := fun _ => true;
              read_csv := fun _ => {| columns := []; data := [] |};
              read_lines := fun _ => ["  Acme Inc "; "   "; "Globex"] |} in
  snd (load_prospect_companies w (Some "lista.TXT") []) = Ok ["Acme Inc"; "Globex"]
  /\ Forall (fun n => Py.strip n = n) ["Acme Inc"; "Globex"].
Proof.
  cbv zeta.
  assert (H : snd (load_prospect_companies
                     {| exists_ := fun _ => true;
                        read_csv := fun _ => {| columns := []; data := [] |};
                        read_lines := fun _ => ["  Acme Inc "; "   "; "Globex"] |}
                     (Some "lista.TXT") []) = Ok ["Acme Inc"; "Globex"])
    by reflexivity.
  split; [exact H|].
  exact (proj1 (prospect_names_trimmed _ _ _ _ H)).
Defined.

(** ** Runs of [main] *)

Lemma missing_nil (df : frame) :
  filter (fun c => negb (Py.mem c (columns df))) required_cols = [] ->
  In "Email" (columns df) /\ In "Company Name" (columns df).
Proof.
  unfold required_cols. cbn [filter].
  destruct (Py.mem "Email" (columns df)) eqn:E1; cbn [negb]; [|discriminate].
  destruct (Py.mem "Company Name" (columns df)) eqn:E2; cbn [negb];
    [|discriminate].
  intros _. split; now apply mem_In.
Qed.

Lemma rows_of_present (df : frame) :
  In "Email" (columns df) -> In "Company Name" (columns df) ->
  exists rows, rows_of df = Ok rows.
Proof.
  intros H1 H2. unfold rows_of.
  destruct (getitem_present df _ H1) as [c1 ->].
  destruct (getitem_present df _ H2) as [c2 ->].
  cbn [rbind]. eauto.
Qed.

Lemma with_suffix_dotted (base : string) :
  Path.with_suffix base ".contatos_tratados.csv"
  = (if String.eqb (Path.name base) "" then Raise ValueError_empty_name
     else Ok (Path.render (Path.root base)
                (removelast (Path.parts base)
                 ++ [String.append
                       (substring 0
                          (String.length (Path.name base)
                           - String.length (Path.suffix_of_name (Path.name base)))
                          (Path.name base))
                       ".contatos_tratados.csv"])))
  /\ Path.with_suffix base ".contatos_suspeitos_isolados.csv"
     = (if String.eqb (Path.name base) "" then Raise ValueError_empty_name
        else Ok (Path.render (Path.root base)
                   (removelast (Path.parts base)
                    ++ [String.append
                          (substring 0
                             (String.length (Path.name base)
                              - String.length
                                  (Path.suffix_of_name (Path.name base)))
                             (Path.name base))
                          ".contatos_suspeitos_isolados.csv"]))).
Proof. split; reflexivity. Qed.

Lemma load_prospect_companies_run (w : world) (p : option string)
    (tr : list event) :
  load_prospect_companies w p tr
  = (tr ++ fst (load_prospect_companies w p []),
     snd (load_prospect_companies w p []))
  /\ (fst (load_prospect_companies w p []) = []
      \/ exists path,
           p = Some path /\ path <> "" /\ exists_ w path = false
           /\ load_prospect_companies w p []
              = ([Stdout (Msg_aviso_nao_encontrado path)], Ok [])).
Proof.
  unfold load_prospect_companies.
  destruct p as [path|]; [|cbn; rewrite app_nil_r; auto].
  destruct (String.eqb path "") eqn:E0; [cbn; rewrite app_nil_r; auto|].
  apply String.eqb_neq in E0.
  destruct (exists_ w path) eqn:Ex; cbn [negb].
  - destruct (String.eqb _ ".txt"); [cbn; rewrite app_nil_r; auto|].
    destruct (filter _ (columns (read_csv w path))) as [|col cs];
      [cbn; rewrite app_nil_r; auto|].
    unfold bind, lift, ret.
    destruct (getitem _ col); cbn; rewrite app_nil_r; auto.
  - cbn. split; [reflexivity|]. right. exists path. auto.
Qed.

(** What [main] does once the input is read and its header accepted. *)
Lemma main_after_checks (w : world) (a : args) (tr1 : list event)
    (P : list string) :
  exists_ w (input_csv a) = true ->
  filter (fun c => negb (Py.mem c (columns (read_csv w (input_csv a)))))
    required_cols = [] ->
  load_prospect_companies w (empresas_prospectadas a)
    [Stdout (Msg_lendo (input_csv a))] = (tr1, Ok P) ->
  exists rows full tr2,
    rows_of (read_csv w (input_csv a)) = Ok rows
    /\ mark_suspects rows P = Ok full
    /\ tr2 = tr1 ++ match P with
                    | [] => []
                    | _ :: _ =>
                        [Stdout (Msg_carregadas
                                   (List.length (nodup string_dec P)))]
                    end
    /\ main w a []
       = match Path.with_suffix (saida_base a) ".contatos_tratados.csv",
               Path.with_suffix (saida_base a)
                 ".contatos_suspeitos_isolados.csv" with
         | Ok p1, Ok p2 =>
             (tr2 ++ [To_csv p1 full; To_csv p2 (filter is_suspect full)],
              Raise (ValueError_invalid_suffix "pac.csv"))
         | _, _ => (tr2, Raise ValueError_empty_name)
         end.
Proof.
  intros Hex Hmiss Hload.
  destruct (missing_nil _ Hmiss) as [H1 H2].
  destruct (rows_of_present _ H1 H2) as [rows Hrows].
  exists rows. eexists. eexists.
  split; [exact Hrows|]. split; [apply mark_suspects_ok|].
  split; [reflexivity|].
  unfold main, bind, emit, raise, lift, ret.
  rewrite Hex. cbn [negb app]. rewrite Hmiss, Hload, Hrows.
  rewrite mark_suspects_ok, with_suffix_pac.
  destruct (with_suffix_dotted (saida_base a)) as [-> ->].
  destruct (String.eqb (Path.name (saida_base a)) "");
    destruct P; rewrite ?app_nil_r, <- ?app_assoc; reflexivity.
Qed.

Lemma notices_print (tr : list event) :
  forallb is_notice tr = true ->
  forallb is_print tr = true
  /\ forallb (fun ev => negb (is_completion ev)) tr = true.
Proof.
  intros H. rewrite forallb_forall in H.
  split; apply forallb_forall; intros ev Hev; specialize (H ev Hev);
    unfold is_notice in H; apply andb_true_iff in H; tauto.
Qed.

(** The shape of a run: it only prints, or it prints and then writes the
    treated table and the suspects table, in that order. *)
Lemma main_trace_shape (w : world) (a : args) :
  (exists e, snd (main w a []) = Raise e)
  /\ (forallb is_notice (fst (main w a [])) = true
      \/ exists rows P full p1 p2 tr2,
           rows_of (read_csv w (input_csv a)) = Ok rows
           /\ snd (load_prospect_companies w (empresas_prospectadas a) [])
              = Ok P
           /\ mark_suspects rows P = Ok full
           /\ Path.with_suffix (saida_base a) ".contatos_tratados.csv" = Ok p1
           /\ Path.with_suffix (saida_base a) ".contatos_suspeitos_isolados.csv"
              = Ok p2
           /\ forallb is_notice tr2 = true
           /\ fst (main w a [])
              = tr2 ++ [To_csv p1 full; To_csv p2 (filter is_suspect full)]).
Proof.
  destruct (exists_ w (input_csv a)) eqn:Hex.
  2:{ unfold main, raise. rewrite Hex. cbn. split; [eauto | now left]. }
  destruct (filter (fun c => negb (Py.mem c (columns (read_csv w (input_csv a)))))
              required_cols) as [|c cs] eqn:Hmiss.
  2:{ unfold main, bind, emit, raise. rewrite Hex. cbn [negb app].
      rewrite Hmiss. cbn. split; [eauto | now left]. }
  destruct (load_prospect_companies_run w (empresas_prospectadas a)
              [Stdout (Msg_lendo (input_csv a))]) as [Hrun Hshape].
  assert (Htr : forallb is_notice
                  ([Stdout (Msg_lendo (input_csv a))]
                   ++ fst (load_prospect_companies w
                             (empresas_prospectadas a) [])) = true).
  { destruct Hshape as [->|[path [_ [_ [_ ->]]]]]; reflexivity. }
  destruct (snd (load_prospect_companies w (empresas_prospectadas a) []))
    as [P|e] eqn:Hres.
  2:{ unfold main, bind, emit, raise. rewrite Hex. cbn [negb app].
      rewrite Hmiss. cbn [app] in Hrun. rewrite Hrun. cbn [fst snd].
      split; [eauto | now left]. }
  destruct (main_after_checks w a _ P Hex Hmiss Hrun)
    as [rows [full [tr2 [Hrows [Hfull [Htr2 Hmain]]]]]].
  assert (Htr2' : forallb is_notice tr2 = true).
  { subst tr2. rewrite forallb_app, Htr. now destruct P. }
  rewrite Hmain.
  destruct (Path.with_suffix (saida_base a) ".contatos_tratados.csv")
    as [p1|e1] eqn:E1;
    destruct (Path.with_suffix (saida_base a) ".contatos_suspeitos_isolados.csv")
      as [p2|e2] eqn:E2; cbn [fst snd];
    (split; [eauto|]); try (left; exact Htr2').
  right. exists rows, P, full, p1, p2, tr2. auto 10.
Qed.

(** X14. No run of [main] completes: the suffix given for the third file
    lacks its leading dot, so a run that gets as far as the third path
    raises there.  No run returns, writes the corrected table, or prints
    the closing message. *)
Theorem main_never_completes (w : world) (a : args) :
  (forall r, snd (main w a []) <> Ok r)
  /\ forallb (fun ev => negb (is_completion ev)) (fst (main w a [])) = true.
Proof.
  destruct (main_trace_shape w a) as [[e He] Hshape]. split.
  - intros r Hr. congruence.
  - destruct Hshape as [Hp|[rows [P [full [p1 [p2 [tr2 H]]]]]]].
    + now apply notices_print.
    + destruct H as [_ [_ [_ [_ [_ [Hp ->]]]]]].
      rewrite forallb_app. rewrite (proj2 (notices_print _ Hp)). reflexivity.
Qed.

Lemma missing_nil_rev (df : frame) :
  In "Email" (columns df) -> In "Company Name" (columns df) ->
  filter (fun c => negb (Py.mem c (columns df))) required_cols = [].
Proof.
  intros H1 H2. apply mem_In in H1. apply mem_In in H2.
  unfold required_cols. cbn [filter]. now rewrite H1, H2.
Qed.

Lemma two_after_prints (tr2 pre post : list event) (x e1 e2 : event) :
  forallb is_print tr2 = true -> is_print x = false ->
  pre ++ x :: post = tr2 ++ [e1; e2] ->
  (pre = tr2 /\ x = e1 /\ post = [e2])
  \/ (pre = tr2 ++ [e1] /\ x = e2 /\ post = []).
Proof.
  revert pre. induction tr2 as [|e t IH]; intros pre Hp Hx E.
  - cbn [app] in E. destruct pre as [|y pre'].
    + inversion E. left. auto.
    + inversion E; subst y. destruct pre' as [|z pre''].
      * inversion H1. right. auto.
      * inversion H1. destruct pre''; discriminate.
  - cbn [forallb] in Hp. apply andb_true_iff in Hp. destruct Hp as [He Hp].
    destruct pre as [|y pre'].
    + inversion E; subst. congruence.
    + inversion E; subst y.
      destruct (IH pre' Hp Hx H1) as [[-> [-> ->]]|[-> [-> ->]]]; auto.
Qed.

(** X15. The order of the writes: whenever a run writes a table, the
    whole input has been classified; the first table written is the
    treated table, preceded by messages only, under the base path with the
    suffix of the treated file; a second one is written right after it and
    is made of its suspect rows, under the base path with the suffix of
    the suspects file.  The property is about what precedes each write, so
    it holds of every prefix of the effects of a run. *)
Theorem main_writes_in_order (w : world) (a : args) (pre post : list event)
    (p : string) (t : list marked) :
  fst (main w a []) = pre ++ To_csv p t :: post ->
  exists rows P full p1 p2,
    rows_of (read_csv w (input_csv a)) = Ok rows
    /\ snd (load_prospect_companies w (empresas_prospectadas a) []) = Ok P
    /\ mark_suspects rows P = Ok full
    /\ map strip_columns full = rows
    /\ Path.with_suffix (saida_base a) ".contatos_tratados.csv" = Ok p1
    /\ Path.with_suffix (saida_base a) ".contatos_suspeitos_isolados.csv" = Ok p2
    /\ ((forallb is_print pre = true /\ p = p1 /\ t = full)
        \/ (exists pre',
               pre = pre' ++ [To_csv p1 full]
               /\ forallb is_print pre' = true
               /\ p = p2 /\ t = filter is_suspect full)).
Proof.
  intros E.
  destruct (main_trace_shape w a) as [_ [Hp|[rows [P [full [p1 [p2 [tr2 H]]]]]]]].
  - exfalso. apply notices_print in Hp. destruct Hp as [Hp _].
    rewrite E in Hp. rewrite forallb_app in Hp.
    apply andb_true_iff in Hp. destruct Hp as [_ Hp]. discriminate.
  - destruct H as [Hrows [Hres [Hfull [E1 [E2 [Hp Htr]]]]]].
    apply notices_print in Hp. destruct Hp as [Hp _].
    exists rows, P, full, p1, p2.
    split; [exact Hrows|]. split; [exact Hres|]. split; [exact Hfull|].
    split; [eapply mark_suspects_strip; exact Hfull|].
    split; [exact E1|]. split; [exact E2|].
    rewrite Htr in E. symmetry in E.
    destruct (two_after_prints tr2 pre post (To_csv p t) _ _ Hp eq_refl E)
      as [[-> [Ex _]]|[-> [Ex _]]]; inversion Ex; subst.
    + left. auto.
    + right. exists tr2. auto.
Qed.

Lemma main_writes_in_order_witness :
  exists full,
    mark_suspects
      [ {| Email := Text "ann@acme.com"; Company_Name := Text "Acme" |} ] []
    = Ok full
    /\ fst (main world_with_input args_with_lost_list [])
       = [Stdout (Msg_lendo "apollo.csv");
          Stdout (Msg_aviso_nao_encontrado "lista.txt");
          To_csv "out/apollo.contatos_tratados.csv" full]
         ++ To_csv "out/apollo.contatos_suspeitos_isolados.csv"
              (filter is_suspect full) :: []
    /\ Path.with_suffix "out/apollo" ".contatos_suspeitos_isolados.csv"
       = Ok "out/apollo.contatos_suspeitos_isolados.csv".
Proof.
  eexists. split; [vm_compute; reflexivity|].
  assert (E : fst (main world_with_input args_with_lost_list [])
              = [Stdout (Msg_lendo "apollo.csv");
                 Stdout (Msg_aviso_nao_encontrado "lista.txt");
                 To_csv "out/apollo.contatos_tratados.csv" _]
                ++ To_csv "out/apollo.contatos_suspeitos_isolados.csv" _ :: [])
    by (vm_compute; reflexivity).
  split; [exact E|].
  destruct (main_writes_in_order _ _ _ _ _ _ E)
    as [rows [P [full [p1 [p2 [_ [_ [_ [_ [_ [E2 _]]]]]]]]]]].
  reflexivity.
Defined.

Lemma lost_allow_list_load (w : world) (p : option string) :
  (forall path, p = Some path -> exists_ w path = false) ->
  snd (load_prospect_companies w p []) = Ok []
  /\ (fst (load_prospect_companies w p []) = []
      \/ exists path,
           fst (load_prospect_companies w p [])
           = [Stdout (Msg_aviso_nao_encontrado path)]).
Proof.
  intros H. unfold load_prospect_companies.
  destruct p as [path|]; [|cbn; auto].
  destruct (String.eqb path ""); [cbn; auto|].
  rewrite (H path eq_refl). cbn. eauto.
Qed.

(** X16. A lost allow-list file does not change the run: when the path
    given for the allow-list names no file, the run ends as the run with
    the same arguments and no allow-list does, and has the same effects,
    but for the warning it prints about the file. *)
Theorem lost_allow_list_is_recoverable (w : world) (a : args) :
  (forall path, empresas_prospectadas a = Some path -> exists_ w path = false) ->
  snd (main w a []) = snd (main w (without_allow_list a) [])
  /\ filter (fun ev => negb (is_warning ev)) (fst (main w a []))
     = fst (main w (without_allow_list a) []).
Proof.
  intros Hlost.
  destruct (exists_ w (input_csv a)) eqn:Hex.
  2:{ unfold main, raise, without_allow_list. cbn [input_csv].
      rewrite Hex. cbn. auto. }
  destruct (filter (fun c => negb (Py.mem c (columns (read_csv w (input_csv a)))))
              required_cols) as [|c cs] eqn:Hmiss.
  2:{ unfold main, bind, emit, raise, without_allow_list. cbn [input_csv].
      rewrite Hex. cbn [negb app]. rewrite Hmiss. cbn. auto. }
  destruct (lost_allow_list_load w _ Hlost) as [Hres Hshape].
  destruct (load_prospect_companies_run w (empresas_prospectadas a)
              [Stdout (Msg_lendo (input_csv a))]) as [Hrun _].
  rewrite Hres in Hrun.
  destruct (main_after_checks w a _ [] Hex Hmiss Hrun)
    as [rows [full [tr2 [Hrows [Hfull [Htr2 Hmain]]]]]].
  assert (Hrun0 : load_prospect_companies w
                    (empresas_prospectadas (without_allow_list a))
                    [Stdout (Msg_lendo (input_csv (without_allow_list a)))]
                  = ([Stdout (Msg_lendo (input_csv a))], Ok []))
    by reflexivity.
  destruct (main_after_checks w (without_allow_list a) _ [] Hex Hmiss Hrun0)
    as [rows0 [full0 [tr0 [Hrows0 [Hfull0 [Htr0 Hmain0]]]]]].
  cbn [without_allow_list input_csv saida_base] in *.
  rewrite Hrows in Hrows0. inversion Hrows0; subst rows0.
  rewrite Hfull in Hfull0. inversion Hfull0; subst full0.
  rewrite Hmain, Hmain0. rewrite app_nil_r in Htr2, Htr0. subst tr2 tr0.
  assert (Hfilt : filter (fun ev => negb (is_warning ev))
                    ([Stdout (Msg_lendo (input_csv a))]
                     ++ fst (load_prospect_companies w
                               (empresas_prospectadas a) []))
                  = [Stdout (Msg_lendo (input_csv a))]).
  { destruct Hshape as [->|[path ->]]; reflexivity. }
  destruct (Path.with_suffix (saida_base a) ".contatos_tratados.csv");
    destruct (Path.with_suffix (saida_base a) ".contatos_suspeitos_isolados.csv");
    cbn [fst snd]; (split; [reflexivity|]); try exact Hfilt.
  rewrite filter_app, Hfilt. reflexivity.
Qed.

Lemma lost_allow_list_is_recoverable_witness :
  snd (main world_with_input args_with_lost_list [])
  = snd (main world_with_input (without_allow_list args_with_lost_list) [])
  /\ filter (fun ev => negb (is_warning ev))
       (fst (main world_with_input args_with_lost_list []))
     = fst (main world_with_input (without_allow_list args_with_lost_list) []).
Proof.
  apply lost_allow_list_is_recoverable.
  intros path E. inversion E; subst. reflexivity.
Defined.

(** ** The corrected table *)

Lemma Forall2_map_right {A B : Type} (rel : A -> B -> Prop) (f : A -> B)
    (l : list A) :
  (forall x, In x l -> rel x (f x)) -> Forall2 rel l (map f l).
Proof.
  induction l as [|x t IH]; intros H; cbn; constructor.
  - apply H. now left.
  - apply IH. intros y Hy. apply H. now right.
Qed.

(** X17. The corrected table, row by row against the input: the email is
    never changed; the row of a record that is not suspect is the input
    row itself; and a company name that does change is replaced by the
    non-empty suggestion of its row. *)
Theorem corrected_table_rows (df : list row) (P : list string)
    (out : list marked) :
  mark_suspects df P = Ok out ->
  Forall2 (fun r m =>
             Email (pac_row m) = Email r
             /\ (is_suspect m = false -> pac_row m = r)
             /\ (Company_Name (pac_row m) <> Company_Name r ->
                 exists s, suggested_company m = Some s /\ s <> ""
                           /\ Company_Name (pac_row m) = Text s))
    df out.
Proof.
  rewrite marked_rows. intros E. inversion E; subst; clear E.
  apply Forall2_map_right. intros r _.
  match goal with
  | |- context [mark_row ?P ?c ?x] =>
      pose proof (proj2 (mark_row_order P c x)) as Hn;
      set (m := mark_row P c x) in *
  end.
  assert (Hb : base (cols (columns_of m)) = r) by reflexivity.
  unfold pac_row. rewrite Hb. cbn [Email Company_Name].
  split; [reflexivity|]. split.
  - intros Hs. rewrite (Hn Hs). now destruct r.
  - destruct (suggested_company m) as [s|]; [|congruence].
    destruct (String.eqb s "") eqn:Es; cbn [negb]; [congruence|].
    apply String.eqb_neq in Es. eauto.
Qed.

Lemma corrected_table_rows_witness :
  exists out,
    mark_suspects scenario_A [] = Ok out
    /\ map (fun m => Company_Name (pac_row m)) out
       = [Text "Acme Inc"; Text "Acme Inc"; Text "Acme Inc"; Text "Acme Inc"]
    /\ Forall2 (fun r m => Email (pac_row m) = Email r) scenario_A out.
Proof.
  assert (H : mark_suspects scenario_A []
              = Ok (map (mark_row [] (Pd.value_counts_get String.eqb
                                        (map company_clean
                                           (map derive_row scenario_A))))
                      (merge_assignments (map derive_row scenario_A))))
    by apply mark_suspects_ok.
  eexists. split; [exact H|]. split; [vm_compute; reflexivity|].
  pose proof (corrected_table_rows _ _ _ H) as HF.
  eapply Forall2_impl; [|exact HF]. cbv beta. intros r m [He _]. exact He.
Defined.

(** ** Joining the CSV files of a folder *)

Lemma header_differs_refl (df : frame) : Juntar.header_differs df df = false.
Proof.
  unfold Juntar.header_differs.
  destruct (list_eq_dec string_dec (columns df) (columns df)); congruence.
Qed.

Lemma collect_from_first (read : string -> frame) (rest : list string)
    (first : frame) (dfs : list frame) (tr : list Juntar.event) :
  Juntar.collect read rest (first :: dfs) tr
  = ((first :: dfs)
     ++ map read (filter (fun g => negb (Juntar.header_differs (read g) first))
                    rest),
     tr ++ flat_map (Juntar.effects_of read first) rest).
Proof.
  revert dfs tr. induction rest as [|g t IH]; intros dfs tr.
  - cbn. now rewrite !app_nil_r.
  - cbn [Juntar.collect filter flat_map].
    change (Juntar.effects_of read first g)
      with (Juntar.Read_csv g
            :: (if Juntar.header_differs (read g) first
                then [Juntar.Ignored g] else [])).
    destruct (Juntar.header_differs (read g) first); cbn [negb].
    + rewrite IH. f_equal. rewrite <- !app_assoc. reflexivity.
    + change ((first :: dfs) ++ [read g]) with (first :: (dfs ++ [read g])).
      rewrite IH. cbn [map]. f_equal.
      * change (first :: dfs ++ [read g]) with ((first :: dfs) ++ [read g]).
        rewrite <- app_assoc. reflexivity.
      * rewrite <- app_assoc. reflexivity.
Qed.

Lemma flat_map_map_read (read : string -> frame) (l : list string) :
  flat_map data (map read l) = flat_map (fun g => data (read g)) l.
Proof.
  induction l as [|g t IH]; [reflexivity|]. cbn. now rewrite IH.
Qed.

Lemma script_with_csv (listdir : list string) (read : string -> frame)
    (f : string) (rest : list string) :
  filter (Juntar.endswith ".csv") listdir = f :: rest ->
  Juntar.script listdir read
  = (flat_map (Juntar.effects_of read (read f)) (f :: rest)
     ++ [Juntar.To_csv Juntar.resultado
           {| columns := columns (read f);
              data :=
                flat_map (fun g => data (read g))
                  (filter (fun g => negb (Juntar.header_differs (read g) (read f)))
                     (f :: rest)) |};
         Juntar.Deu_certo],
     Juntar.Finished).
Proof.
  intros Hcsv. unfold Juntar.script. rewrite Hcsv.
  cbn [Juntar.collect app]. rewrite collect_from_first.
  cbn [app Juntar.concat filter flat_map].
  change (Juntar.effects_of read (read f) f)
    with (Juntar.Read_csv f
          :: (if Juntar.header_differs (read f) (read f)
              then [Juntar.Ignored f] else [])).
  rewrite header_differs_refl. cbn [negb flat_map app].
  now rewrite flat_map_map_read.
Qed.

Lemma app_two_inj {A : Type} (x y : list A) (a b c d : A) :
  x ++ [a; b] = y ++ [c; d] -> x = y /\ a = c /\ b = d.
Proof.
  change (x ++ [a] ++ [b] = y ++ [c] ++ [d] -> x = y /\ a = c /\ b = d).
  rewrite !app_assoc. intros H.
  apply app_inj_tail in H. destruct H as [H ->].
  apply app_inj_tail in H. destruct H as [-> ->]. auto.
Qed.

Lemma run_loop_reads (read : string -> option frame)
    (frames : string -> frame) (arquivos : list string) (dfs : list frame)
    (tr : list Juntar.event) :
  (forall g, In g arquivos -> read g = Some (frames g)) ->
  Juntar.run_loop read arquivos dfs tr
  = (snd (Juntar.collect frames arquivos dfs tr),
     inl (fst (Juntar.collect frames arquivos dfs tr))).
Proof.
  revert dfs tr. induction arquivos as [|g t IH]; intros dfs tr Hread.
  - reflexivity.
  - cbn [Juntar.run_loop Juntar.collect].
    rewrite (Hread g (or_introl eq_refl)).
    assert (Ht : forall g', In g' t -> read g' = Some (frames g'))
      by (intros g' Hg'; apply Hread; now right).
    destruct dfs as [|first dfs'].
    + now apply IH.
    + destruct (Juntar.header_differs (frames g) first); now apply IH.
Qed.

(** [Juntar.script] is the run in which no call raises. *)
Lemma script_is_run (listdir : list string) (read : string -> frame) :
  Juntar.run (Some listdir) (fun g => Some (read g)) (fun _ _ => true)
  = Juntar.script listdir read.
Proof.
  unfold Juntar.run, Juntar.script.
  rewrite (run_loop_reads _ read) by reflexivity.
  destruct (Juntar.collect read _ [] []) as [dfs tr]. cbn [fst snd].
  now destruct (Juntar.concat dfs).
Qed.

Lemma run_with_csv (listdir : list string) (read : string -> option frame)
    (write : string -> frame -> bool) (frames : string -> frame)
    (f : string) (rest : list string) :
  filter (Juntar.endswith ".csv") listdir = f :: rest ->
  (forall g, In g (f :: rest) -> read g = Some (frames g)) ->
  let joined :=
    {| columns := columns (frames f);
       data :=
         flat_map (fun g => data (frames g))
           (filter (fun g => negb (Juntar.header_differs (frames g) (frames f)))
              (f :: rest)) |} in
  Juntar.run (Some listdir) read write
  = if write Juntar.resultado joined
    then (flat_map (Juntar.effects_of frames (frames f)) (f :: rest)
          ++ [Juntar.To_csv Juntar.resultado joined; Juntar.Deu_certo],
          Juntar.Finished)
    else (flat_map (Juntar.effects_of frames (frames f)) (f :: rest),
          Juntar.Raised_by_to_csv).
Proof.
  intros Hcsv Hread. cbv zeta.
  pose proof (script_with_csv listdir frames f rest Hcsv) as Hs.
  unfold Juntar.script in Hs. unfold Juntar.run.
  rewrite Hcsv in *. rewrite (run_loop_reads _ frames) by exact Hread.
  destruct (Juntar.collect frames (f :: rest) [] []) as [dfs tr].
  cbn [fst snd].
  destruct (Juntar.concat dfs) as [df_final|]; [|discriminate].
  injection Hs as Htr.
  apply (app_two_inj tr (flat_map (Juntar.effects_of frames (frames f))
                           (f :: rest))) in Htr.
  destruct Htr as [-> [Hdf _]]. injection Hdf as ->. reflexivity.
Qed.

(** X18. When the folder is listed, holds at least one CSV file, each of
    its CSV files is parsed and the write goes through, the script writes
    one table and finishes: the header of the table is the header of the
    first CSV file listed, and its lines are the lines of the CSV files
    that have exactly that header, in the order listed.  Each CSV file is
    read once, in that order, and each one with another header is reported
    as ignored right after it is read. *)
Theorem juntar_joins_matching_files (listdir : list string)
    (read : string -> option frame) (write : string -> frame -> bool)
    (frames : string -> frame) (f : string) (rest : list string) :
  let kept :=
    filter (fun g => negb (Juntar.header_differs (frames g) (frames f)))
      (f :: rest) in
  let joined :=
    {| columns := columns (frames f);
       data := flat_map (fun g => data (frames g)) kept |} in
  filter (Juntar.endswith ".csv") listdir = f :: rest ->
  (forall g, In g (f :: rest) -> read g = Some (frames g)) ->
  write Juntar.resultado joined = true ->
  In f kept
  /\ Forall (fun g => columns (frames g) = columns (frames f)) kept
  /\ Juntar.run (Some listdir) read write
     = (flat_map (Juntar.effects_of frames (frames f)) (f :: rest)
        ++ [Juntar.To_csv Juntar.resultado joined; Juntar.Deu_certo],
        Juntar.Finished).
Proof.
  cbv zeta. intros Hcsv Hread Hwrite. split; [|split].
  - cbn [filter]. rewrite header_differs_refl. now left.
  - apply Forall_forall. intros g Hg. apply filter_In in Hg.
    destruct Hg as [_ Hg]. unfold Juntar.header_differs in Hg.
    destruct (list_eq_dec string_dec (columns (frames g)) (columns (frames f)));
      [assumption | discriminate].
  - pose proof (run_with_csv listdir read write frames f rest Hcsv Hread) as H.
    cbv zeta in H. now rewrite Hwrite in H.
Qed.

Lemma juntar_joins_matching_files_witness :
  Juntar.run (Some folder) folder_parse folder_write
  = ([Juntar.Read_csv "a.csv"; Juntar.Read_csv "b.csv"; Juntar.Ignored "b.csv";
      Juntar.Read_csv "c.csv";
      Juntar.To_csv Juntar.resultado
        {| columns := ["Email"; "Company Name"];
           data := [[Text "a.csv"; Text "Acme"]; [Text "c.csv"; Text "Acme"]] |};
      Juntar.Deu_certo],
     Juntar.Finished).
Proof.
  refine (proj2 (proj2 (juntar_joins_matching_files folder folder_parse
                          folder_write folder_read "a.csv" ["b.csv"; "c.csv"]
                          eq_refl _ eq_refl))).
  intros g [<-|[<-|[<-|[]]]]; reflexivity.
Defined.

Lemma run_loop_trace (read : string -> option frame) (arquivos : list string)
    (dfs : list frame) (tr : list Juntar.event) :
  exists tr',
    fst (Juntar.run_loop read arquivos dfs tr) = tr ++ tr'
    /\ forallb is_reading tr' = true
    /\ forall e, snd (Juntar.run_loop read arquivos dfs tr) = inr e ->
         exists g tr0,
           e = Juntar.Raised_by_read_csv g /\ In g arquivos /\ read g = None
           /\ tr' = tr0 ++ [Juntar.Read_csv g].
Proof.
  revert dfs tr. induction arquivos as [|g t IH]; intros dfs tr.
  - exists []. cbn. rewrite app_nil_r. repeat split. discriminate.
  - cbn [Juntar.run_loop]. destruct (read g) as [df|] eqn:Hg.
    + assert (Hstep : forall dfs' evs,
                forallb is_reading evs = true ->
                exists tr',
                  fst (Juntar.run_loop read t dfs'
                         ((tr ++ [Juntar.Read_csv g]) ++ evs)) = tr ++ tr'
                  /\ forallb is_reading tr' = true
                  /\ forall e,
                       snd (Juntar.run_loop read t dfs'
                              ((tr ++ [Juntar.Read_csv g]) ++ evs)) = inr e ->
                       exists g' tr0,
                         e = Juntar.Raised_by_read_csv g' /\ In g' (g :: t)
                         /\ read g' = None
                         /\ tr' = tr0 ++ [Juntar.Read_csv g']).
      { intros dfs' evs Hevs.
        destruct (IH dfs' ((tr ++ [Juntar.Read_csv g]) ++ evs))
          as [tr' [E [Hr He]]].
        exists ((Juntar.Read_csv g :: evs) ++ tr'). split; [|split].
        - rewrite E. cbn [app]. rewrite <- !app_assoc. reflexivity.
        - rewrite forallb_app. cbn [forallb is_reading]. now rewrite Hevs, Hr.
        - intros e Hsnd. destruct (He e Hsnd) as [g' [tr0 [-> [Hin [Hn ->]]]]].
          exists g', ((Juntar.Read_csv g :: evs) ++ tr0).
          repeat split; [now right | exact Hn |].
          now rewrite <- app_assoc. }
      destruct dfs as [|first dfs'].
      * specialize (Hstep ([] ++ [df]) [] eq_refl).
        now rewrite app_nil_r in Hstep.
      * destruct (Juntar.header_differs df first).
        -- exact (Hstep (first :: dfs') [Juntar.Ignored g] eq_refl).
        -- specialize (Hstep ((first :: dfs') ++ [df]) [] eq_refl).
           now rewrite app_nil_r in Hstep.
    + exists [Juntar.Read_csv g]. cbn [fst snd]. repeat split.
      intros e He. injection He as <-. exists g, [].
      repeat split; [now left | exact Hg].
Qed.

(** X22. The script writes last or not at all.  Before the write it only
    reads files and reports those it ignores.  When it finishes, the trace
    ends with one write, which went through, under the path of the result,
    and the closing message; when it does not, it has written nothing and
    printed no closing message.  A read that raises ends the script there:
    the last effect is the read of that file, which is a CSV file of the
    folder.  A folder that cannot be listed ends the script before any
    effect. *)
Theorem juntar_writes_last (listdir : option (list string))
    (read : string -> option frame) (write : string -> frame -> bool) :
  (exists tr',
      forallb is_reading tr' = true
      /\ ((snd (Juntar.run listdir read write) = Juntar.Finished
           /\ exists df,
                write Juntar.resultado df = true
                /\ fst (Juntar.run listdir read write)
                   = tr' ++ [Juntar.To_csv Juntar.resultado df; Juntar.Deu_certo])
          \/ (snd (Juntar.run listdir read write) <> Juntar.Finished
              /\ fst (Juntar.run listdir read write) = tr')))
  /\ (forall g,
        snd (Juntar.run listdir read write) = Juntar.Raised_by_read_csv g ->
        read g = None
        /\ (exists names, listdir = Some names /\ In g names
                          /\ Juntar.endswith ".csv" g = true)
        /\ exists tr0,
             fst (Juntar.run listdir read write) = tr0 ++ [Juntar.Read_csv g])
  /\ (listdir = None ->
      Juntar.run listdir read write = ([], Juntar.Raised_by_listdir)).
Proof.
  destruct listdir as [names|].
  2:{ split; [|split]; [|discriminate|reflexivity].
      exists []. split; [reflexivity|]. right. split; [discriminate|reflexivity]. }
  unfold Juntar.run.
  destruct (run_loop_trace read (filter (Juntar.endswith ".csv") names) [] [])
    as [tr' [E [Hr He]]].
  destruct (Juntar.run_loop read _ [] []) as [tr [dfs|e]]; cbn [fst snd] in *.
  - subst tr. cbn [app].
    destruct (Juntar.concat dfs) as [df_final|].
    + destruct (write Juntar.resultado df_final) eqn:Hw; cbn [fst snd].
      * split; [|split]; [|discriminate|discriminate].
        exists tr'. split; [exact Hr|]. left. split; [reflexivity|].
        exists df_final. auto.
      * split; [|split]; [|discriminate|discriminate].
        exists tr'. split; [exact Hr|]. right. split; [discriminate|reflexivity].
    + cbn [fst snd]. split; [|split]; [|discriminate|discriminate].
      exists tr'. split; [exact Hr|]. right. split; [discriminate|reflexivity].
  - subst tr. cbn [app].
    destruct (He e eq_refl) as [g [tr0 [-> [Hin [Hn ->]]]]].
    split; [|split]; [| |discriminate].
    + exists (tr0 ++ [Juntar.Read_csv g]). split; [exact Hr|].
      right. split; [discriminate|reflexivity].
    + intros g' Hg'. injection Hg' as <-. split; [exact Hn|]. split.
      * exists names. apply filter_In in Hin. destruct Hin as [Hin Hcsv]. auto.
      * now exists tr0.
Qed.

(** X19. When the folder holds no file whose name ends in .csv, the script
    reads nothing, writes nothing and ends with the error of concatenating
    no table. *)
Theorem juntar_without_csv (listdir : list string) (read : string -> frame) :
  filter (Juntar.endswith ".csv") listdir = [] ->
  Juntar.script listdir read = ([], Juntar.ValueError_no_objects_to_concatenate).
Proof.
  intros Hcsv. unfold Juntar.script. now rewrite Hcsv.
Qed.

Lemma juntar_without_csv_witness :
  Juntar.script ["notes.txt"; "csv"; "a.csv.bak"] folder_read
  = ([], Juntar.ValueError_no_objects_to_concatenate).
Proof.
  apply juntar_without_csv. reflexivity.
Defined.

(** X20. The script reads no other file than those of the folder whose
    names end in .csv. *)
Theorem juntar_reads_csv_only (listdir : list string) (read : string -> frame)
    (arquivo : string) :
  In (Juntar.Read_csv arquivo) (fst (Juntar.script listdir read)) ->
  In arquivo listdir /\ Juntar.endswith ".csv" arquivo = true.
Proof.
  intros Hin.
  destruct (filter (Juntar.endswith ".csv") listdir) as [|f rest] eqn:Hcsv.
  - unfold Juntar.script in Hin. rewrite Hcsv in Hin. contradiction.
  - rewrite (script_with_csv _ _ f rest Hcsv) in Hin.
    cbn [fst] in Hin. apply in_app_or in Hin.
    destruct Hin as [Hin|[Hin|[Hin|[]]]]; try discriminate.
    apply in_flat_map in Hin. destruct Hin as [g [Hg Hin]].
    unfold Juntar.effects_of in Hin.
    assert (Eg : arquivo = g).
    { destruct Hin as [E|Hin]; [now inversion E|].
      destruct (Juntar.header_differs _ _); [|contradiction].
      destruct Hin as [E|[]]. discriminate. }
    subst g. apply (filter_In (Juntar.endswith ".csv")).
    rewrite Hcsv. exact Hg.
Qed.

Lemma juntar_reads_csv_only_witness :
  In (Juntar.Read_csv "c.csv") (fst (Juntar.script folder folder_read))
  /\ In "c.csv" folder /\ Juntar.endswith ".csv" "c.csv" = true.
Proof.
  assert (H : In (Juntar.Read_csv "c.csv")
                (fst (Juntar.script folder folder_read)))
    by (vm_compute; auto).
  split; [exact H|].
  exact (juntar_reads_csv_only folder folder_read "c.csv" H).
Defined.

(** ** The value of the dominant share *)

Section GroupbySums.
Context {K : Type} {eqb ltb : K -> K -> bool} `{!StrictOrderB eqb ltb}.

Lemma sum_where_add_group (q : K -> bool) (k : K) (n : nat)
    (gs : list (K * nat)) :
  sum_where q (Pd.add_group eqb ltb k n gs)
  = sum_where q gs + (if q k then n else 0).
Proof.
  unfold sum_where, list_sum.
  induction gs as [|[k1 m] t IH]; cbn [Pd.add_group].
  - cbn. destruct (q k); cbn; lia.
  - destruct (eqb k k1) eqn:E1.
    + apply eqb_eq in E1. subst k1. cbn [filter fst].
      destruct (q k); cbn; lia.
    + destruct (ltb k k1).
      * cbn [filter fst]. destruct (q k), (q k1); cbn [map fold_right snd]; lia.
      * cbn [filter fst] in *.
        destruct (q k1); cbn [map fold_right snd]; rewrite IH; lia.
Qed.

Lemma sum_where_groupby {R : Type} (q : K -> bool) (key : R -> option K)
    (val : R -> nat) (rows : list R) :
  sum_where q (Pd.groupby_sum eqb ltb key val rows)
  = list_sum (map val (filter (fun r => match key r with
                                        | Some k => q k
                                        | None => false
                                        end) rows)).
Proof.
  unfold Pd.groupby_sum.
  assert (H : forall acc,
             sum_where q
               (fold_left (fun gs r => match key r with
                                       | Some k => Pd.add_group eqb ltb k (val r) gs
                                       | None => gs
                                       end) rows acc)
             = sum_where q acc
               + list_sum (map val (filter (fun r => match key r with
                                                     | Some k => q k
                                                     | None => false
                                                     end) rows))).
  { unfold list_sum. induction rows as [|r t IH]; intros acc;
      cbn [fold_left filter].
    - cbn. lia.
    - rewrite IH. destruct (key r) as [k|]; [|reflexivity].
      rewrite sum_where_add_group.
      destruct (q k); cbn [map fold_right]; lia. }
  rewrite H. reflexivity.
Qed.
End GroupbySums.

Lemma domain_total_named (df : list derived) (d : string) :
  domain_total df d = named_in_domain df d.
Proof.
  unfold domain_total, rows_total, domain_groups, Pd.groupby_size.
  change (list_sum
            (map snd
               (filter (fun r : (string * string) * nat => String.eqb d (fst (fst r)))
                  (Pd.groupby_sum pair_eqb pair_ltb domain_company_key
                     (fun _ => 1) df))))
    with (sum_where (fun k : string * string => String.eqb d (fst k))
            (Pd.groupby_sum pair_eqb pair_ltb domain_company_key
               (fun _ => 1) df)).
  rewrite sum_where_groupby, list_sum_ones. unfold named_in_domain.
  f_equal. apply filter_ext. intros r. unfold domain_company_key.
  destruct (domain r); [|reflexivity].
  destruct (Company_Name (base r)); reflexivity.
Qed.

(** X21. The dominant share of a domain is the number of records of the
    domain that carry the dominant company name divided by the number of
    records of the domain that carry a company name at all; records without
    company name are not in the divisor.  The share reaches the threshold
    DOMINANT_MIN_SHARE exactly when five times the first number is at
    least three times the second. *)
Theorem dominant_share_value (df : list derived) (a : DominantAssignment) :
  In a (find_dominant_company_per_domain df) ->
  let occ := occurrences_in_domain df (da_domain a) (dominant_company a) in
  let named := named_in_domain df (da_domain a) in
  dominant_share a = (Z.of_nat occ # Pos.of_nat named)%Q
  /\ 1 <= occ <= named
  /\ ((DOMINANT_MIN_SHARE <= dominant_share a)%Q <-> 3 * named <= 5 * occ).
Proof.
  intros Ha. cbv zeta. apply dominant_is_top in Ha.
  destruct Ha as [s [Hs [-> _]]].
  cbn [assignment_of da_domain dominant_company dominant_share].
  pose proof (domain_stats_total df s Hs) as [Ht [H1 H2]].
  pose proof Hs as Hs'. apply domain_stats_In in Hs'.
  destruct Hs' as [_ [Hc _]].
  rewrite domain_total_named in Ht.
  unfold share. rewrite Ht, Hc in *.
  split; [reflexivity|]. split; [lia|].
  unfold DOMINANT_MIN_SHARE, Qle. cbn [Qnum Qden].
  rewrite Pos_of_nat_Z by lia. lia.
Qed.

Lemma dominant_share_value_witness :
  In {| da_domain := "acme.com"; dominant_company := "Acme Inc";
        dominant_share := (3 # 4)%Q |}
     (find_dominant_company_per_domain (map derive_row scenario_A))
  /\ 1 <= occurrences_in_domain (map derive_row scenario_A) "acme.com" "Acme Inc"
     <= named_in_domain (map derive_row scenario_A) "acme.com".
Proof.
  assert (H : In {| da_domain := "acme.com"; dominant_company := "Acme Inc";
                    dominant_share := (3 # 4)%Q |}
                (find_dominant_company_per_domain (map derive_row scenario_A)))
    by (vm_compute; auto).
  split; [exact H|].
  exact (proj1 (proj2 (dominant_share_value _ _ H))).
Defined.
